(** * telegram-bot-opencv: a shallow embedding of the bot's command
      dispatcher, its execution worker and the queue and locks between them.

    The Go program has two functions of interest, [processUpdate] (one call
    per inbound update) and [processExecuteRequest] (one call per queued
    request, from the single worker goroutine of [main]).  Both talk to the
    outside world: the Telegram client, the file system, the external script,
    the log, two mutexes and one buffered channel.  They are embedded as
    finite trees of external calls ([prog]); a tree is run either in isolation
    against an oracle that answers every call ([exec]), or as one thread of
    the whole process, where lock and channel calls can block ([step]). *)

From stdpp Require Import gmap strings list fin_maps.
From Stdlib.Strings Require Import Byte.

Local Open Scope Z_scope.

(** ** Types of the messaging client (package [bot]) that the program uses.

    Only the fields the program reads are kept.  Pointers that the program
    tests or dereferences are options. *)
Module bot.

Record KeyboardButton := { Text : string }.

(* bot.NewKeyboardButtons(texts...) *)
Definition NewKeyboardButtons (texts : list string) : list KeyboardButton :=
  map (fun t => {| Text := t |}) texts.

Record ReplyKeyboardMarkup := {
  Keyboard : list (list KeyboardButton);
  ResizeKeyboard : bool
}.

Inductive ChatAction :=
| ChatActionTyping
| ChatActionUploadPhoto
| ChatActionUploadVideo.

Inductive InputFile :=
| InputFileFromBytes (bytes : list byte).

Record User := { Username : option string; FirstName : string }.

Record Chat := { ID : Z }.

Record Message := {
  From : option User;                 (* From *User *)
  MessageChat : Chat;
  MessageText : option string
}.

(* func (m Message) HasText() bool *)
Definition HasText (m : Message) : bool :=
  match MessageText m with Some _ => true | None => false end.

Record Update := { UpdateMessage : option Message }.

(* the part of an API response the program looks at *)
Record APIResponse := { Ok : bool; Description : option string }.

End bot.

(** Go's [error] interface, as far as [%s] formatting sees it. *)
Record error := { Error : string }.

(** ** Data model of the program *)

(* type Status int16 *)
Definition Status := Z.
Definition StatusWaiting : Status := 0.

Definition defaultMonitorIntervalSeconds : Z := 5.
Definition numQueue : nat := 4.

Definition commandStart : string := "/start".
Definition commandExecute : string := "/execute".
Definition commandShowCode : string := "/showcode".

Definition messageDefault : string := "Input your command:".
Definition messageUnknownCommand : string := "Unknown command.".
(* "Error: %s" applied to one argument *)
Definition messageErrorFormat (s : string) : string := "Error: " +:+ s.

Record Session := { UserID : string; CurrentStatus : Status }.

(* The embedded sync.Mutex of SessionPool lives in the process state. *)
Record SessionPool := { Sessions : gmap string Session }.

(* values stored in a map[string]interface{} of message options: the
   keyboard that the program stores, and the parameters that the client
   stores *)
Inductive OptionValue :=
| OptReplyKeyboardMarkup (m : bot.ReplyKeyboardMarkup)
| OptChatID (chat : Z)
| OptInputFile (file : bot.InputFile).

(** The send methods of the client store the essential parameters of the
    request in the options map they are given ([options["chat_id"] = chatID],
    [options["photo"] = photo]) before they make the request.  A Go map is a
    reference: the map of the caller holds them afterwards.  These are the
    contents of a map after it was passed to [SendPhoto] and to [SendVideo].
    ([SendMessage] stores [chat_id] and [text] likewise; the program never
    uses a map again after it.) *)
Definition afterSendPhoto (chat : Z) (file : bot.InputFile)
    (options : gmap string OptionValue) : gmap string OptionValue :=
  <[ "photo" := OptInputFile file ]> (<[ "chat_id" := OptChatID chat ]> options).

Definition afterSendVideo (chat : Z) (file : bot.InputFile)
    (options : gmap string OptionValue) : gmap string OptionValue :=
  <[ "video" := OptInputFile file ]> (<[ "chat_id" := OptChatID chat ]> options).

(* MessageOptions is a map that is not nil, as processUpdate makes it *)
Record ExecuteRequest := {
  ChatID : Z;
  MessageOptions : gmap string OptionValue
}.

Record Config := {
  APIToken : string;
  AllowedIds : list string;
  MonitorInterval : Z;
  ScriptPath : string;
  IsVerbose : bool
}.

(** The package-level variables that [init] sets and nothing else assigns. *)
Record Globals := {
  apiToken : string;
  monitorInterval : Z;
  isVerbose : bool;
  allowedIds : list string;
  scriptPath : string;
  pool : SessionPool
}.

Definition allKeyboards : list (list bot.KeyboardButton) :=
  [ bot.NewKeyboardButtons [commandExecute];
    bot.NewKeyboardButtons [commandShowCode] ].

(* strings.HasPrefix(s, prefix) *)
Definition HasPrefix (s prefix : string) : bool := String.prefix prefix s.

(** ** Initialization *)

(* the loop of init that fills the session map *)
Definition initSessions (ids : list string) : gmap string Session :=
  foldl (fun sessions v =>
           <[ v := {| UserID := v; CurrentStatus := StatusWaiting |} ]> sessions)
        ∅ ids.

Definition initGlobals (config : Config) : Globals :=
  {| apiToken := APIToken config;
     allowedIds := AllowedIds config;
     monitorInterval :=
       if MonitorInterval config <=? 0 then defaultMonitorIntervalSeconds
       else MonitorInterval config;
     scriptPath := ScriptPath config;
     isVerbose := IsVerbose config;
     pool := {| Sessions := initSessions (AllowedIds config) |} |}.

(* init, given what getConfig returned; None is the panic *)
Definition init (getConfig : Config + error) : option Globals :=
  match getConfig with
  | inl config => Some (initGlobals config)
  | inr _ => None
  end.

(* the capacity and the initial content of executeChannel *)
Definition initChannel : list ExecuteRequest := [].

(* check if given Telegram id is available *)
Fixpoint isAvailableID_in (ids : list string) (id : string) : bool :=
  match ids with
  | [] => false
  | v :: rest => if String.eqb v id then true else isAvailableID_in rest id
  end.

Definition isAvailableID (g : Globals) (id : string) : bool :=
  isAvailableID_in (allowedIds g) id.

(** ** Programs: trees of external calls *)

Inductive call : Type -> Type :=
| LogPrintf (line : string) : call unit
| PoolLock : call unit
| PoolUnlock : call unit
| ExecuteLockLock : call unit
| ExecuteLockUnlock : call unit
| ChanSend (request : ExecuteRequest) : call unit
| ReadFile (path : string) : call (list byte + error)
| CombinedOutput (path : string) : call (list byte * option error)
| SendChatAction (chat : Z) (action : bot.ChatAction) : call bot.APIResponse
| SendMessage (chat : Z) (text : string) (options : gmap string OptionValue)
    : call bot.APIResponse
| SendPhoto (chat : Z) (file : bot.InputFile) (options : gmap string OptionValue)
    : call bot.APIResponse
| SendVideo (chat : Z) (file : bot.InputFile) (options : gmap string OptionValue)
    : call bot.APIResponse.

Inductive prog (R : Type) : Type :=
| Ret (r : R)
| Panic
| Vis {X : Type} (c : call X) (k : X -> prog R).

Arguments Ret {R} r.
Arguments Panic {R}.
Arguments Vis {R X} c k.

Fixpoint bind {A B : Type} (p : prog A) (f : A -> prog B) : prog B :=
  match p with
  | Ret a => f a
  | Panic => Panic
  | Vis c k => Vis c (fun x => bind (k x) f)
  end.

#[global] Instance prog_ret : MRet prog := @Ret.
#[global] Instance prog_bind : MBind prog := fun A B f p => bind p f.

Definition trigger {X : Type} (c : call X) : prog X := Vis c Ret.

(* dereference of a pointer that may be nil *)
Definition deref {A : Type} (p : option A) : prog A :=
  match p with
  | Some a => Ret a
  | None => Panic
  end.

(* [defer d] around a body: d runs when the body returns and when it panics *)
Fixpoint defer {R : Type} (d : prog unit) (body : prog R) : prog R :=
  match body with
  | Ret r => bind d (fun _ => Ret r)
  | Panic => bind d (fun _ => Panic)
  | Vis c k => Vis c (fun x => defer d (k x))
  end.

(** ** The two functions *)

(* read code from the python script *)
Definition readCode (g : Globals) : prog string :=
  r ← trigger (ReadFile (scriptPath g));
  match r with
  | inl bytes => mret (String.string_of_list_byte bytes)
  | inr err => mret (messageErrorFormat (Error err))
  end.

(* the message of readCode for what the read of the script file returned *)
Definition codeMessage (r : list byte + error) : string :=
  match r with
  | inl bytes => String.string_of_list_byte bytes
  | inr err => messageErrorFormat (Error err)
  end.

(* the options literal of processUpdate *)
Definition replyOptions : gmap string OptionValue :=
  {[ "reply_markup" :=
       OptReplyKeyboardMarkup
         {| bot.Keyboard := allKeyboards; bot.ResizeKeyboard := true |} ]}.

(* text from message *)
Definition textOf (msg : bot.Message) : string :=
  if bot.HasText msg then default "" (bot.MessageText msg) else "".

(* the switch of processUpdate that chooses the message *)
Definition chooseMessage (g : Globals) (session : Session) (txt : string)
  : prog string :=
  if CurrentStatus session =? StatusWaiting then
    if HasPrefix txt commandStart then mret messageDefault
    else if HasPrefix txt commandExecute then mret ""
    else if HasPrefix txt commandShowCode then readCode g
    else if (0 <? String.length txt)%nat
         then mret (txt +:+ ": " +:+ messageUnknownCommand)
         else mret messageUnknownCommand
  else mret "".

(* the last part of processUpdate: send the message, or push a request when
   the message is empty; the value is the new [result] *)
Definition replyOrEnqueue (chat : Z) (options : gmap string OptionValue)
    (message : string) : prog bool :=
  if (0 <? String.length message)%nat then
    trigger (SendChatAction chat bot.ChatActionTyping);;
    sent ← trigger (SendMessage chat message options);
    if bot.Ok sent then mret true
    else
      description ← deref (bot.Description sent);
      trigger (LogPrintf ("*** Failed to send message: " +:+ description));;
      mret false
  else
    trigger (ChanSend {| ChatID := chat; MessageOptions := options |});;
    mret false.

(* process incoming update from Telegram *)
Definition processUpdate (g : Globals) (update : bot.Update) : prog bool :=
  msg ← deref (bot.UpdateMessage update);
  sender ← deref (bot.From msg);
  match bot.Username sender with
  | None =>
      trigger (LogPrintf ("*** Not allowed (no user name): "
                          +:+ bot.FirstName sender));;
      mret false
  | Some userID =>
      if negb (isAvailableID g userID) then
        trigger (LogPrintf ("*** Id not allowed: " +:+ userID));;
        mret false
      else
        trigger PoolLock;;
        result ←
          match Sessions (pool g) !! userID with
          | Some session =>
              let txt := textOf msg in
              let options := replyOptions in
              message ← chooseMessage g session txt;
              replyOrEnqueue (bot.ID (bot.MessageChat msg)) options message
          | None =>
              trigger (LogPrintf ("*** Session does not exist for id: "
                                  +:+ userID));;
              mret false
          end;
        trigger PoolUnlock;;
        mret result
  end.

(** [http.DetectContentType] belongs to Go's standard library; the worker is
    embedded for an arbitrary content sniffer. *)
Section Worker.

Variable DetectContentType : list byte -> string.

(* the common tail of every text send: log the description on failure *)
Definition sendMessageOrLog (chat : Z) (text : string)
    (options : gmap string OptionValue) (failure : string) : prog bool :=
  sent ← trigger (SendMessage chat text options);
  if bot.Ok sent then mret true
  else
    description ← deref (bot.Description sent);
    trigger (LogPrintf ("*** " +:+ failure +:+ ": " +:+ description));;
    mret false.

(* the body of processExecuteRequest, between Lock and the deferred Unlock.
   request.MessageOptions is one map, passed by reference to every send:
   the report that follows a failed SendPhoto or SendVideo is sent with the
   map as that call left it *)
Definition executeAndRespond (g : Globals) (request : ExecuteRequest)
  : prog bool :=
  let chat := ChatID request in
  let options := MessageOptions request in
  trigger (SendChatAction chat bot.ChatActionTyping);;
  output ← trigger (CombinedOutput (scriptPath g));
  let bytes := fst output in
  match snd output with
  | Some err =>
      let message := "Error running script: " +:+ Error err +:+ " ("
                     +:+ String.string_of_list_byte bytes +:+ ")" in
      trigger (LogPrintf ("*** " +:+ message));;
      sendMessageOrLog chat message options "Failed to send error message"
  | None =>
      let mime := DetectContentType bytes in
      if HasPrefix mime "image" then
        trigger (SendChatAction chat bot.ChatActionUploadPhoto);;
        sent ← trigger (SendPhoto chat (bot.InputFileFromBytes bytes) options);
        let options := afterSendPhoto chat (bot.InputFileFromBytes bytes)
                         options in
        if bot.Ok sent then mret true
        else
          description ← deref (bot.Description sent);
          let message := "Failed to send photo: " +:+ description in
          trigger (LogPrintf ("*** " +:+ message));;
          sendMessageOrLog chat message options "Failed to send error message"
      else if HasPrefix mime "video" then
        trigger (SendChatAction chat bot.ChatActionUploadVideo);;
        sent ← trigger (SendVideo chat (bot.InputFileFromBytes bytes) options);
        let options := afterSendVideo chat (bot.InputFileFromBytes bytes)
                         options in
        if bot.Ok sent then mret true
        else
          description ← deref (bot.Description sent);
          let message := "Failed to send video: " +:+ description in
          trigger (LogPrintf ("*** " +:+ message));;
          sendMessageOrLog chat message options "Failed to send error message"
      else
        let message := String.string_of_list_byte bytes in
        sendMessageOrLog chat message options "Failed to send message"
  end.

(* process execute request *)
Definition processExecuteRequest (g : Globals) (request : ExecuteRequest)
  : prog bool :=
  trigger ExecuteLockLock;;
  defer (trigger ExecuteLockUnlock) (executeAndRespond g request).

End Worker.

(** ** Running one call in isolation

    An [oracle] answers the n-th external call of a run; [exec] follows the
    tree along the answers and records every call with its answer.  Lock and
    channel calls are granted at once here; their blocking is part of [step]
    below. *)

Inductive event :=
| EvLogPrintf (line : string)
| EvPoolLock
| EvPoolUnlock
| EvExecuteLockLock
| EvExecuteLockUnlock
| EvChanSend (request : ExecuteRequest)
| EvReadFile (path : string) (r : list byte + error)
| EvCombinedOutput (path : string) (r : list byte * option error)
| EvSendChatAction (chat : Z) (action : bot.ChatAction) (r : bot.APIResponse)
| EvSendMessage (chat : Z) (text : string) (options : gmap string OptionValue)
    (r : bot.APIResponse)
| EvSendPhoto (chat : Z) (file : bot.InputFile)
    (options : gmap string OptionValue) (r : bot.APIResponse)
| EvSendVideo (chat : Z) (file : bot.InputFile)
    (options : gmap string OptionValue) (r : bot.APIResponse).

Definition event_of {X : Type} (c : call X) : X -> event :=
  match c in call X return X -> event with
  | LogPrintf line => fun _ => EvLogPrintf line
  | PoolLock => fun _ => EvPoolLock
  | PoolUnlock => fun _ => EvPoolUnlock
  | ExecuteLockLock => fun _ => EvExecuteLockLock
  | ExecuteLockUnlock => fun _ => EvExecuteLockUnlock
  | ChanSend request => fun _ => EvChanSend request
  | ReadFile path => EvReadFile path
  | CombinedOutput path => EvCombinedOutput path
  | SendChatAction chat action => EvSendChatAction chat action
  | SendMessage chat text options => EvSendMessage chat text options
  | SendPhoto chat file options => EvSendPhoto chat file options
  | SendVideo chat file options => EvSendVideo chat file options
  end.

Definition oracle := nat -> forall X : Type, call X -> X.

(* the trace of the run from call number n on, and the result (None: panic) *)
Fixpoint exec {R : Type} (o : oracle) (n : nat) (p : prog R)
  : list event * option R :=
  match p with
  | Ret r => ([], Some r)
  | Panic => ([], None)
  | Vis c k =>
      let x := o n _ c in
      let rest := exec o (S n) (k x) in
      (event_of c x :: fst rest, snd rest)
  end.

Definition trace {R : Type} (o : oracle) (p : prog R) : list event :=
  fst (exec o 0%nat p).

Definition result {R : Type} (o : oracle) (p : prog R) : option R :=
  snd (exec o 0%nat p).

(** What a trace shows of the sends and of the queue. *)

(* the text replies, oldest first: chat, text and options of each SendMessage *)
Fixpoint sentMessages (tr : list event)
  : list (Z * string * gmap string OptionValue) :=
  match tr with
  | [] => []
  | EvSendMessage chat text options _ :: tr' =>
      (chat, text, options) :: sentMessages tr'
  | _ :: tr' => sentMessages tr'
  end.

Fixpoint sentPhotos (tr : list event) : list (Z * bot.InputFile) :=
  match tr with
  | [] => []
  | EvSendPhoto chat file _ _ :: tr' => (chat, file) :: sentPhotos tr'
  | _ :: tr' => sentPhotos tr'
  end.

Fixpoint sentVideos (tr : list event) : list (Z * bot.InputFile) :=
  match tr with
  | [] => []
  | EvSendVideo chat file _ _ :: tr' => (chat, file) :: sentVideos tr'
  | _ :: tr' => sentVideos tr'
  end.

(* what the reads of files returned *)
Fixpoint fileReads (tr : list event) : list (string * (list byte + error)) :=
  match tr with
  | [] => []
  | EvReadFile path r :: tr' => (path, r) :: fileReads tr'
  | _ :: tr' => fileReads tr'
  end.

(* what the runs of the script returned *)
Fixpoint scriptRuns (tr : list event)
  : list (string * (list byte * option error)) :=
  match tr with
  | [] => []
  | EvCombinedOutput path r :: tr' => (path, r) :: scriptRuns tr'
  | _ :: tr' => scriptRuns tr'
  end.

(* the requests pushed to executeChannel *)
Fixpoint enqueued (tr : list event) : list ExecuteRequest :=
  match tr with
  | [] => []
  | EvChanSend request :: tr' => request :: enqueued tr'
  | _ :: tr' => enqueued tr'
  end.

Fixpoint logged (tr : list event) : list string :=
  match tr with
  | [] => []
  | EvLogPrintf line :: tr' => line :: logged tr'
  | _ :: tr' => logged tr'
  end.

(** The outcome of dispatching one update, read off the trace of
    [processUpdate]: a reply (the text of the message sent to the chat), a
    request pushed to the queue, or neither. *)
Inductive DispatchOutcome :=
| ReplyWith (message : string)
| Enqueue (request : ExecuteRequest)
| Drop.

Fixpoint outcome (tr : list event) : DispatchOutcome :=
  match tr with
  | [] => Drop
  | EvSendMessage _ text _ _ :: _ => ReplyWith text
  | EvChanSend request :: _ => Enqueue request
  | _ :: tr' => outcome tr'
  end.

Definition dispatch (g : Globals) (o : oracle) (update : bot.Update)
  : DispatchOutcome :=
  outcome (trace o (processUpdate g update)).

(** ** The earlier copy of the program (main.go)

    Its types differ from the ones above in the capitalization of field names
    only ([UserId], [ChatId], [Chat.Id]), so the records are shared. *)
Module Legacy.

Definition CommandStart : string := "/start".
Definition CommandExecute : string := "/execute".
Definition CommandShowCode : string := "/showcode".

Definition MessageDefault : string := "Input your command:".
Definition MessageUnknownCommand : string := "Unknown command.".
Definition MessageErrorFormat (s : string) : string := "Error: " +:+ s.

Fixpoint isAvailableId_in (ids : list string) (id : string) : bool :=
  match ids with
  | [] => false
  | v :: rest => if String.eqb v id then true else isAvailableId_in rest id
  end.

Definition isAvailableId (g : Globals) (id : string) : bool :=
  isAvailableId_in (allowedIds g) id.

Definition readCode (g : Globals) : prog string :=
  r ← trigger (ReadFile (scriptPath g));
  match r with
  | inl bytes => mret (String.string_of_list_byte bytes)
  | inr err => mret (MessageErrorFormat (Error err))
  end.

Definition chooseMessage (g : Globals) (session : Session) (txt : string)
  : prog string :=
  if CurrentStatus session =? StatusWaiting then
    if HasPrefix txt CommandStart then mret MessageDefault
    else if HasPrefix txt CommandExecute then mret ""
    else if HasPrefix txt CommandShowCode then readCode g
    else mret (txt +:+ ": " +:+ MessageUnknownCommand)
  else mret "".

Definition replyOrEnqueue (chat : Z) (options : gmap string OptionValue)
    (message : string) : prog bool :=
  if (0 <? String.length message)%nat then
    trigger (SendChatAction chat bot.ChatActionTyping);;
    sent ← trigger (SendMessage chat message options);
    if bot.Ok sent then mret true
    else
      description ← deref (bot.Description sent);
      trigger (LogPrintf ("*** Failed to send message: " +:+ description));;
      mret false
  else
    trigger (ChanSend {| ChatID := chat; MessageOptions := options |});;
    mret false.

Definition processUpdate (g : Globals) (update : bot.Update) : prog bool :=
  msg ← deref (bot.UpdateMessage update);
  sender ← deref (bot.From msg);
  match bot.Username sender with
  | None =>
      trigger (LogPrintf ("*** Not allowed (no user name): "
                          +:+ bot.FirstName sender));;
      mret false
  | Some userId =>
      if negb (isAvailableId g userId) then
        trigger (LogPrintf ("*** Id not allowed: " +:+ userId));;
        mret false
      else
        trigger PoolLock;;
        result ←
          match Sessions (pool g) !! userId with
          | Some session =>
              let txt := textOf msg in
              let options := replyOptions in
              message ← chooseMessage g session txt;
              replyOrEnqueue (bot.ID (bot.MessageChat msg)) options message
          | None =>
              trigger (LogPrintf ("*** Session does not exist for id: "
                                  +:+ userId));;
              mret false
          end;
        trigger PoolUnlock;;
        mret result
  end.

End Legacy.

(** ** The running process

    After [init] and the start-up checks of [main], the process consists of
    the worker goroutine, which loops on [<-executeChannel] and calls
    [processExecuteRequest], and of the calls of [processUpdate] that the
    update monitor makes, one for each update that arrives without error and
    carries a message.  The goroutines share the two mutexes and the channel.
    A step is one external call of one goroutine (any interleaving, any
    answer of the outside world), a receive of the worker, or the arrival of
    an update. *)

Inductive goroutine :=
| Handler (p : prog bool)     (* inside processUpdate *)
| WorkerIdle                  (* at <-executeChannel *)
| Worker (p : prog bool).     (* inside processExecuteRequest *)

Record State := {
  globals : Globals;
  poolLocked : bool;                       (* pool.Mutex *)
  executeLocked : bool;                    (* executeLock *)
  executeChannel : list ExecuteRequest;    (* buffered values, oldest first *)
  goroutines : list goroutine
}.

Definition setGoroutines (σ : State) (gs : list goroutine) : State :=
  {| globals := globals σ; poolLocked := poolLocked σ;
     executeLocked := executeLocked σ; executeChannel := executeChannel σ;
     goroutines := gs |}.

Definition setPoolLocked (σ : State) (b : bool) : State :=
  {| globals := globals σ; poolLocked := b;
     executeLocked := executeLocked σ; executeChannel := executeChannel σ;
     goroutines := goroutines σ |}.

Definition setExecuteLocked (σ : State) (b : bool) : State :=
  {| globals := globals σ; poolLocked := poolLocked σ;
     executeLocked := b; executeChannel := executeChannel σ;
     goroutines := goroutines σ |}.

Definition setExecuteChannel (σ : State) (q : list ExecuteRequest) : State :=
  {| globals := globals σ; poolLocked := poolLocked σ;
     executeLocked := executeLocked σ; executeChannel := q;
     goroutines := goroutines σ |}.

(* Can the call proceed now?  Lock waits for a free mutex, a channel send
   for a free slot of the buffer; Unlock of a mutex that is not locked is a
   fatal error of the Go runtime and takes no step. *)
Definition enabled {X : Type} (c : call X) (σ : State) : bool :=
  match c with
  | PoolLock => negb (poolLocked σ)
  | PoolUnlock => poolLocked σ
  | ExecuteLockLock => negb (executeLocked σ)
  | ExecuteLockUnlock => executeLocked σ
  | ChanSend _ => (length (executeChannel σ) <? numQueue)%nat
  | _ => true
  end.

Definition effect {X : Type} (c : call X) (σ : State) : State :=
  match c with
  | PoolLock => setPoolLocked σ true
  | PoolUnlock => setPoolLocked σ false
  | ExecuteLockLock => setExecuteLocked σ true
  | ExecuteLockUnlock => setExecuteLocked σ false
  | ChanSend request => setExecuteChannel σ (executeChannel σ ++ [request])
  | _ => σ
  end.

Inductive label :=
| LUpdate (update : bot.Update)            (* the monitor calls processUpdate *)
| LCall (i : nat) (e : event)              (* goroutine i makes a call *)
| LReceive (i : nat) (request : ExecuteRequest)   (* worker i receives *)
| LReturn (i : nat).                       (* worker i is back at the loop *)

(* the goroutine that moves in a step *)
Definition actor (l : label) : option nat :=
  match l with
  | LUpdate _ => None
  | LCall i _ | LReceive i _ | LReturn i => Some i
  end.

(* one call of the program p: the event with its answer, what remains of p,
   and the shared state after the call *)
Definition callStep {R : Type} (p : prog R) (σ : State) (e : event)
    (p' : prog R) (σ' : State) : Prop :=
  match p with
  | Vis c k =>
      enabled c σ = true ∧ ∃ x, e = event_of c x ∧ p' = k x ∧ σ' = effect c σ
  | _ => False
  end.

Section Process.

Variable DetectContentType : list byte -> string.

Inductive step : State -> label -> State -> Prop :=
| step_update σ update :
    bot.UpdateMessage update ≠ None ->
    step σ (LUpdate update)
      (setGoroutines σ
         (goroutines σ ++ [Handler (processUpdate (globals σ) update)]))
| step_handler σ i p e p' σ' :
    goroutines σ !! i = Some (Handler p) ->
    callStep p σ e p' σ' ->
    step σ (LCall i e)
      (setGoroutines σ' (<[ i := Handler p' ]> (goroutines σ')))
| step_worker σ i p e p' σ' :
    goroutines σ !! i = Some (Worker p) ->
    callStep p σ e p' σ' ->
    step σ (LCall i e)
      (setGoroutines σ' (<[ i := Worker p' ]> (goroutines σ')))
| step_receive σ i request rest :
    goroutines σ !! i = Some WorkerIdle ->
    executeChannel σ = request :: rest ->
    step σ (LReceive i request)
      (setGoroutines (setExecuteChannel σ rest)
         (<[ i := Worker (processExecuteRequest DetectContentType
                            (globals σ) request) ]> (goroutines σ)))
| step_return σ i r :
    goroutines σ !! i = Some (Worker (Ret r)) ->
    step σ (LReturn i)
      (setGoroutines σ (<[ i := WorkerIdle ]> (goroutines σ))).

(* the steps of a run, oldest first *)
Inductive steps (σ0 : State) : list label -> State -> Prop :=
| steps_nil : steps σ0 [] σ0
| steps_snoc ls σ l σ' :
    steps σ0 ls σ -> step σ l σ' -> steps σ0 (ls ++ [l]) σ'.

End Process.

(* the process when main starts monitoring, with the given number of worker
   goroutines *)
Definition startWith (workers : nat) (g : Globals) : State :=
  {| globals := g; poolLocked := false; executeLocked := false;
     executeChannel := initChannel;
     goroutines := replicate workers WorkerIdle |}.

(* main starts exactly one worker *)
Definition start (g : Globals) : State := startWith 1 g.

(** What a run shows. *)

(* the goroutines between ExecuteLockLock and ExecuteLockUnlock *)
Definition inFlightAfter (holders : list nat) (l : label) : list nat :=
  match l with
  | LCall i EvExecuteLockLock => holders ++ [i]
  | LCall i EvExecuteLockUnlock => filter (fun j => j ≠ i) holders
  | _ => holders
  end.

Definition inFlight (ls : list label) : list nat :=
  foldl inFlightAfter [] ls.

(* the requests sent to executeChannel, in the order of the sends *)
Fixpoint pushed (ls : list label) : list ExecuteRequest :=
  match ls with
  | [] => []
  | LCall _ (EvChanSend request) :: ls' => request :: pushed ls'
  | _ :: ls' => pushed ls'
  end.

(* the requests received by the worker, in the order of the receives *)
Fixpoint popped (ls : list label) : list ExecuteRequest :=
  match ls with
  | [] => []
  | LReceive _ request :: ls' => request :: popped ls'
  | _ :: ls' => popped ls'
  end.

Definition isReceive (l : label) : bool :=
  match l with LReceive _ _ => true | _ => false end.

(* goroutine i cannot move in σ *)
Definition blocked (D : list byte -> string) (σ : State) (i : nat) : Prop :=
  ∀ l σ', step D σ l σ' -> actor l ≠ Some i.


(** ** Shapes of programs with respect to executeLock *)

Definition isExecuteLock {X : Type} (c : call X) : bool :=
  match c with ExecuteLockLock => true | _ => false end.

Definition isExecuteUnlock {X : Type} (c : call X) : bool :=
  match c with ExecuteLockUnlock => true | _ => false end.

Definition isExecuteLockEvent (e : event) : bool :=
  match e with EvExecuteLockLock | EvExecuteLockUnlock => true | _ => false end.

(* the program makes no call on executeLock *)
Fixpoint lockFree {R : Type} (p : prog R) : Prop :=
  match p with
  | Vis c k =>
      isExecuteLock c = false ∧ isExecuteUnlock c = false
      ∧ ∀ x, lockFree (k x)
  | _ => True
  end.

(* the program has returned or panicked *)
Definition finished {R : Type} (p : prog R) : Prop :=
  match p with Vis _ _ => False | _ => True end.

(* the program runs under executeLock: on every path it makes calls that are
   not on the lock, then one Unlock, and is finished *)
Fixpoint holding {R : Type} (p : prog R) : Prop :=
  match p with
  | Vis c k =>
      isExecuteLock c = false
      ∧ if isExecuteUnlock c then ∀ x, finished (k x) else ∀ x, holding (k x)
  | _ => False
  end.

(* the program starts by taking executeLock and then runs under it *)
Definition acquiring {R : Type} (p : prog R) : Prop :=
  match p with
  | Vis c k => isExecuteLock c = true ∧ ∀ x, holding (k x)
  | _ => False
  end.

(* what the goroutine with number i may be, given the goroutines in flight *)
Definition goroutineShape (holders : list nat) (i : nat) (gr : goroutine)
  : Prop :=
  match gr with
  | Handler p => lockFree p ∧ i ∉ holders
  | WorkerIdle => i ∉ holders
  | Worker p =>
      if decide (i ∈ holders) then holding p else acquiring p ∨ finished p
  end.

Definition lockInvariant (ls : list label) (σ : State) : Prop :=
  (if executeLocked σ then ∃ i, inFlight ls = [i] else inFlight ls = [])
  ∧ (∀ i, i ∈ inFlight ls -> (i < length (goroutines σ))%nat)
  ∧ (∀ i gr, goroutines σ !! i = Some gr ->
             goroutineShape (inFlight ls) i gr).

(** ** The queue in a run *)

(* the channel never exceeds its capacity and holds the requests that were
   sent and not yet received, in the order of the sends *)
Definition queueInvariant (ls : list label) (σ : State) : Prop :=
  (length (executeChannel σ) ≤ numQueue)%nat
  ∧ pushed ls = popped ls ++ executeChannel σ.

(* a goroutine at a send on the full channel *)
Definition waitingToPush (σ : State) (i : nat) (request : ExecuteRequest)
    (k : unit -> prog bool) : Prop :=
  goroutines σ !! i = Some (Handler (Vis (ChanSend request) k))
  ∧ length (executeChannel σ) = numQueue.

(** ** Sample data *)

Definition sampleConfig : Config :=
  {| APIToken := "0123456789:abcdefghijklmnopqrstuvwyz-x-0a1b2c3d4e";
     AllowedIds := ["telegram_id_1"; "telegram_id_2"];
     MonitorInterval := 5;
     ScriptPath := "/home/pi/python/opencv/detect_face.py";
     IsVerbose := false |}.

Definition sampleGlobals : Globals := initGlobals sampleConfig.

Definition sampleMessage (user : string) (chat : Z) (text : option string)
  : bot.Message :=
  {| bot.From := Some {| bot.Username := Some user; bot.FirstName := "Pi" |};
     bot.MessageChat := {| bot.ID := chat |};
     bot.MessageText := text |}.

Definition sampleUpdate (user : string) (chat : Z) (text : option string)
  : bot.Update :=
  {| bot.UpdateMessage := Some (sampleMessage user chat text) |}.

Definition sampleRequest (chat : Z) : ExecuteRequest :=
  {| ChatID := chat; MessageOptions := replyOptions |}.

Definition delivered : bot.APIResponse :=
  {| bot.Ok := true; bot.Description := None |}.

Definition refused : bot.APIResponse :=
  {| bot.Ok := false; bot.Description := Some "Bad Request: chat not found" |}.

(* an outside world that answers every read of a file with [file], every run
   of the script with [script] and every send with [sent] *)
Definition sampleOracle (file : list byte + error)
    (script : list byte * option error) (sent : bot.APIResponse) : oracle :=
  fun _ X c =>
    match c in call X return X with
    | LogPrintf _ | PoolLock | PoolUnlock | ExecuteLockLock
    | ExecuteLockUnlock | ChanSend _ => tt
    | ReadFile _ => file
    | CombinedOutput _ => script
    | SendChatAction _ _ | SendMessage _ _ _ | SendPhoto _ _ _
    | SendVideo _ _ _ => sent
    end.

(* do the bytes carry the signature at the offset? *)
Definition hasSignature (offset : nat) (signature : list N)
    (bytes : list byte) : bool :=
  bool_decide (take (length signature) (drop offset (map Byte.to_N bytes))
               = signature).

(* a content sniffer that knows the JPEG and PNG signatures and the "ftyp"
   box of MP4 *)
Definition sampleSniffer (bytes : list byte) : string :=
  if hasSignature 0 [255; 216; 255]%N bytes then "image/jpeg"
  else if hasSignature 0 [137; 80; 78; 71; 13; 10; 26; 10]%N bytes
       then "image/png"
  else if hasSignature 4 [102; 116; 121; 112]%N bytes then "video/mp4"
  else "text/plain; charset=utf-8".

Definition jpegBytes : list byte := [xff; xd8; xff; xe0; x00; x10].
Definition mp4Bytes : list byte :=
  [x00; x00; x00; x18; x66; x74; x79; x70; x6d; x70; x34; x32].
Definition textBytes : list byte := [x6f; x6b].

(** ** Running the process along a schedule

    A schedule names, step by step, the update that arrives or the goroutine
    that moves; the outside world answers each call as [answers] says.
    [fire] computes the step, if the goroutine can move. *)

Inductive move :=
| MUpdate (update : bot.Update)
| MCall (i : nat)
| MReceive (i : nat)
| MReturn (i : nat).

Definition fireCall {R : Type} (answers : forall X : Type, call X -> X)
    (p : prog R) (σ : State) : option (event * prog R * State) :=
  match p with
  | Vis c k =>
      if enabled c σ
      then Some (event_of c (answers _ c), k (answers _ c), effect c σ)
      else None
  | _ => None
  end.

Definition fire (D : list byte -> string)
    (answers : forall X : Type, call X -> X) (σ : State) (m : move)
  : option (label * State) :=
  match m with
  | MUpdate update =>
      match bot.UpdateMessage update with
      | Some _ =>
          Some (LUpdate update,
                setGoroutines σ
                  (goroutines σ
                   ++ [Handler (processUpdate (globals σ) update)]))
      | None => None
      end
  | MCall i =>
      match goroutines σ !! i with
      | Some (Handler p) =>
          match fireCall answers p σ with
          | Some (e, p', σ') =>
              Some (LCall i e,
                    setGoroutines σ' (<[ i := Handler p' ]> (goroutines σ')))
          | None => None
          end
      | Some (Worker p) =>
          match fireCall answers p σ with
          | Some (e, p', σ') =>
              Some (LCall i e,
                    setGoroutines σ' (<[ i := Worker p' ]> (goroutines σ')))
          | None => None
          end
      | _ => None
      end
  | MReceive i =>
      match goroutines σ !! i, executeChannel σ with
      | Some WorkerIdle, request :: rest =>
          Some (LReceive i request,
                setGoroutines (setExecuteChannel σ rest)
                  (<[ i := Worker (processExecuteRequest D (globals σ)
                                     request) ]> (goroutines σ)))
      | _, _ => None
      end
  | MReturn i =>
      match goroutines σ !! i with
      | Some (Worker (Ret _)) =>
          Some (LReturn i,
                setGoroutines σ (<[ i := WorkerIdle ]> (goroutines σ)))
      | _ => None
      end
  end.

(* the run along the schedule, as far as it goes *)
Fixpoint fireAll (D : list byte -> string)
    (answers : forall X : Type, call X -> X) (σ : State) (ms : list move)
  : list label * State :=
  match ms with
  | [] => ([], σ)
  | m :: ms' =>
      match fire D answers σ m with
      | Some (l, σ') =>
          let rest := fireAll D answers σ' ms' in (l :: fst rest, snd rest)
      | None => ([], σ)
      end
  end.

(* the request that goroutine i is about to send, if it is at a send *)
Definition atSend (σ : State) (i : nat) : option ExecuteRequest :=
  match goroutines σ !! i with
  | Some (Handler (Vis c _)) =>
      match c with ChanSend request => Some request | _ => None end
  | _ => None
  end.

(* one "/execute" arrives, its request is queued, the worker receives it,
   takes executeLock and signals that it is working *)
Definition sampleSchedule : list move :=
  [ MUpdate (sampleUpdate "telegram_id_1" 1 (Some "/execute"));
    MCall 1%nat; MCall 1%nat; MReceive 0%nat; MCall 0%nat; MCall 0%nat ].

(* the moves of one "/execute" from the given chat, handled by goroutine i:
   up to the send, and the send with the Unlock *)
Definition sampleArrival (i : nat) (chat : Z) : list move :=
  [ MUpdate (sampleUpdate "telegram_id_2" chat (Some "/execute")); MCall i ].

Definition samplePush (i : nat) (chat : Z) : list move :=
  sampleArrival i chat ++ [ MCall i; MCall i ].

(* four "/execute" are queued while the worker does not receive; a fifth
   arrives *)
Definition sampleBurst : list move :=
  samplePush 1%nat 1 ++ samplePush 2%nat 2 ++ samplePush 3%nat 3
  ++ samplePush 4%nat 4 ++ sampleArrival 5%nat 5.

Definition sampleAnswers : forall X : Type, call X -> X :=
  sampleOracle (inl []) (jpegBytes, None) delivered 0%nat.

Definition sampleRun : list label * State :=
  fireAll sampleSniffer sampleAnswers (start sampleGlobals) sampleSchedule.

Definition sampleBurstRun : list label * State :=
  fireAll sampleSniffer sampleAnswers (start sampleGlobals) sampleBurst.


(** ** More of what a trace shows *)

(* the sender of the message is there, has a user name and isAvailableID
   accepts it *)
Definition allowedSender (g : Globals) (msg : bot.Message) : bool :=
  match bot.From msg with
  | Some sender =>
      match bot.Username sender with
      | Some userID => isAvailableID g userID
      | None => false
      end
  | None => false
  end.

(* the answers to the sends that deliver something (text, photo or video),
   oldest first; chat actions are not among them *)
Fixpoint deliveries (tr : list event) : list bot.APIResponse :=
  match tr with
  | [] => []
  | EvSendMessage _ _ _ r :: tr' => r :: deliveries tr'
  | EvSendPhoto _ _ _ r :: tr' => r :: deliveries tr'
  | EvSendVideo _ _ _ r :: tr' => r :: deliveries tr'
  | _ :: tr' => deliveries tr'
  end.

(* the options that these sends were given, oldest first *)
Fixpoint sentOptions (tr : list event) : list (gmap string OptionValue) :=
  match tr with
  | [] => []
  | EvSendMessage _ _ options _ :: tr' => options :: sentOptions tr'
  | EvSendPhoto _ _ options _ :: tr' => options :: sentOptions tr'
  | EvSendVideo _ _ options _ :: tr' => options :: sentOptions tr'
  | _ :: tr' => sentOptions tr'
  end.

(* the chat actions signalled, oldest first *)
Fixpoint sentActions (tr : list event) : list (Z * bot.ChatAction) :=
  match tr with
  | [] => []
  | EvSendChatAction chat action _ :: tr' => (chat, action) :: sentActions tr'
  | _ :: tr' => sentActions tr'
  end.

Definition isPoolLockEvent (e : event) : bool :=
  match e with EvPoolLock => true | _ => false end.

Definition isPoolUnlockEvent (e : event) : bool :=
  match e with EvPoolUnlock => true | _ => false end.

(* how many events of the trace pass the test *)
Fixpoint countEvents (test : event -> bool) (tr : list event) : nat :=
  match tr with
  | [] => 0
  | e :: tr' => (if test e then 1 else 0) + countEvents test tr'
  end.

(* every call to the client is addressed to the chat, and every send
   carries the options *)
Definition addressedTo (chat : Z) (options : gmap string OptionValue)
    (e : event) : Prop :=
  match e with
  | EvSendChatAction c _ _ => c = chat
  | EvSendMessage c _ o _ => c = chat ∧ o = options
  | EvSendPhoto c _ o _ => c = chat ∧ o = options
  | EvSendVideo c _ o _ => c = chat ∧ o = options
  | _ => True
  end.

(** ** Start-up and the monitor's callback *)

Definition configFilename : string := "config.json".

(** [json.Unmarshal], [filepath.Join] and the directory of the source file
    ([path.Dir] of what [runtime.Caller] reports) come from Go's library and
    runtime; start-up is embedded for arbitrary ones. *)
Section Startup.

Variable Unmarshal : list byte -> Config + error.
Variable Join : string -> string -> string.
Variable sourceDir : string.

(* Read config *)
Definition getConfig : prog (Config + error) :=
  r ← trigger (ReadFile (Join sourceDir configFilename));
  match r with
  | inl file =>
      match Unmarshal file with
      | inl conf => mret (inl conf)
      | inr err => mret (inr err)
      end
  | inr err => mret (inr err)
  end.

(* initialization: getConfig, then [init] on what it returned *)
Definition initialize : prog Globals :=
  r ← getConfig;
  match init r with
  | Some g => mret g
  | None => Panic
  end.

End Startup.

(* the function that main hands to StartMonitoringUpdates *)
Definition monitorCallback (g : Globals) (update : bot.Update)
    (err : option error) : prog unit :=
  match err with
  | None =>
      match bot.UpdateMessage update with
      | Some _ => processUpdate g update;; mret tt
      | None => mret tt
      end
  | Some e =>
      trigger (LogPrintf ("*** Error while receiving update ("
                          +:+ Error e +:+ ")"))
  end.

(** ** The lock of the session pool in a run *)

Definition isPoolLock {X : Type} (c : call X) : bool :=
  match c with PoolLock => true | _ => false end.

Definition isPoolUnlock {X : Type} (c : call X) : bool :=
  match c with PoolUnlock => true | _ => false end.

Definition isLog {X : Type} (c : call X) : bool :=
  match c with LogPrintf _ => true | _ => false end.

(* the goroutines between pool.Lock and pool.Unlock *)
Definition poolFlightAfter (holders : list nat) (l : label) : list nat :=
  match l with
  | LCall i EvPoolLock => holders ++ [i]
  | LCall i EvPoolUnlock => filter (fun j => j ≠ i) holders
  | _ => holders
  end.

Definition poolFlight (ls : list label) : list nat :=
  foldl poolFlightAfter [] ls.

(* every call of the program has the property *)
Fixpoint everyCall {R : Type} (P : ∀ X : Type, call X -> Prop) (p : prog R)
  : Prop :=
  match p with
  | Vis c k => P _ c ∧ ∀ x, everyCall P (k x)
  | _ => True
  end.

(* the program makes no call on the lock of the pool *)
Definition poolFree {R : Type} (p : prog R) : Prop :=
  everyCall (fun X c => isPoolLock c = false ∧ isPoolUnlock c = false) p.

(* the program only writes to the log *)
Definition logsOnly {R : Type} (p : prog R) : Prop :=
  everyCall (fun X c => isLog c = true) p.

(* the program runs under the lock of the pool: on every path it makes calls
   that are not on the lock and then either one Unlock, after which it is
   finished, or it panics with the lock held *)
Fixpoint poolHolding {R : Type} (p : prog R) : Prop :=
  match p with
  | Vis c k =>
      isPoolLock c = false
      ∧ if isPoolUnlock c then ∀ x, finished (k x) else ∀ x, poolHolding (k x)
  | Panic => True
  | Ret _ => False
  end.

(* the program starts by taking the lock of the pool and then runs under it *)
Definition poolAcquiring {R : Type} (p : prog R) : Prop :=
  match p with
  | Vis c k => isPoolLock c = true ∧ ∀ x, poolHolding (k x)
  | _ => False
  end.

(* what the goroutine with number i may be, given the holders of the lock *)
Definition poolShape (holders : list nat) (i : nat) (gr : goroutine) : Prop :=
  match gr with
  | Handler p =>
      if decide (i ∈ holders) then poolHolding p
      else poolAcquiring p ∨ logsOnly p
  | WorkerIdle => i ∉ holders
  | Worker p => poolFree p ∧ i ∉ holders
  end.

Definition poolInvariant (ls : list label) (σ : State) : Prop :=
  (if poolLocked σ then ∃ i, poolFlight ls = [i] else poolFlight ls = [])
  ∧ (∀ i, i ∈ poolFlight ls -> (i < length (goroutines σ))%nat)
  ∧ (∀ i gr, goroutines σ !! i = Some gr -> poolShape (poolFlight ls) i gr).

Definition isHandler (gr : goroutine) : bool :=
  match gr with Handler _ => true | _ => false end.

(* main starts one worker, and it is the first goroutine of the process *)
Definition oneWorker (σ : State) : Prop :=
  (1 ≤ length (goroutines σ))%nat
  ∧ ∀ i gr, goroutines σ !! i = Some gr -> isHandler gr = negb (i =? 0)%nat.

(** ** The keyboard *)

(* the options hold the keyboard of the two commands as reply_markup *)
Definition hasKeyboard (options : gmap string OptionValue) : Prop :=
  options !! "reply_markup"
  = Some (OptReplyKeyboardMarkup
            {| bot.Keyboard := allKeyboards; bot.ResizeKeyboard := true |}).

(* a send is given options with the keyboard; a push carries the options
   literal of processUpdate *)
Definition keyboardCall (X : Type) (c : call X) : Prop :=
  match c with
  | SendMessage _ _ options => hasKeyboard options
  | SendPhoto _ _ options => hasKeyboard options
  | SendVideo _ _ options => hasKeyboard options
  | ChanSend request => MessageOptions request = replyOptions
  | _ => True
  end.

Definition keyboardEvent (e : event) : Prop :=
  match e with
  | EvSendMessage _ _ options _ => hasKeyboard options
  | EvSendPhoto _ _ options _ => hasKeyboard options
  | EvSendVideo _ _ options _ => hasKeyboard options
  | EvChanSend request => MessageOptions request = replyOptions
  | _ => True
  end.

Definition keyboardLabel (l : label) : Prop :=
  match l with
  | LCall _ e => keyboardEvent e
  | LReceive _ request => MessageOptions request = replyOptions
  | _ => True
  end.

Definition keyboardInvariant (σ : State) : Prop :=
  Forall (fun request => MessageOptions request = replyOptions)
    (executeChannel σ)
  ∧ ∀ i gr, goroutines σ !! i = Some gr ->
            match gr with
            | Handler p => everyCall keyboardCall p
            | Worker p => everyCall keyboardCall p
            | WorkerIdle => True
            end.

(** ** The chats the process talks to *)

(* the chat that a call to the client, or a push, is for *)
Definition chatOfCall {X : Type} (c : call X) : option Z :=
  match c with
  | SendChatAction chat _ => Some chat
  | SendMessage chat _ _ => Some chat
  | SendPhoto chat _ _ => Some chat
  | SendVideo chat _ _ => Some chat
  | ChanSend request => Some (ChatID request)
  | _ => None
  end.

Definition chatOfEvent (e : event) : option Z :=
  match e with
  | EvSendChatAction chat _ _ => Some chat
  | EvSendMessage chat _ _ _ => Some chat
  | EvSendPhoto chat _ _ _ => Some chat
  | EvSendVideo chat _ _ _ => Some chat
  | EvChanSend request => Some (ChatID request)
  | _ => None
  end.

(* the chat of the update, when its message has a sender with a user name
   that isAvailableID accepts *)
Definition allowedChat (g : Globals) (update : bot.Update) : option Z :=
  match bot.UpdateMessage update with
  | Some msg =>
      if allowedSender g msg then Some (bot.ID (bot.MessageChat msg))
      else None
  | None => None
  end.

(* the chats of the updates of allowed senders that arrived in the run *)
Fixpoint allowedChats (g : Globals) (ls : list label) : list Z :=
  match ls with
  | [] => []
  | LUpdate update :: ls' =>
      match allowedChat g update with
      | Some chat => chat :: allowedChats g ls'
      | None => allowedChats g ls'
      end
  | _ :: ls' => allowedChats g ls'
  end.

(* every call of the program that is for a chat is for one of the chats *)
Definition talksTo {R : Type} (chats : list Z) (p : prog R) : Prop :=
  everyCall (fun X c => ∀ chat, chatOfCall c = Some chat -> chat ∈ chats) p.

Definition chatInvariant (g : Globals) (ls : list label) (σ : State) : Prop :=
  globals σ = g
  ∧ Forall (fun request => ChatID request ∈ allowedChats g ls)
      (executeChannel σ)
  ∧ ∀ i gr, goroutines σ !! i = Some gr ->
            match gr with
            | Handler p => talksTo (allowedChats g ls) p
            | Worker p => talksTo (allowedChats g ls) p
            | WorkerIdle => True
            end.

(** ** More sample runs *)

(* one "/execute" arrives and is queued, and the worker has received it *)
Definition sampleReceived : list label * State :=
  fireAll sampleSniffer sampleAnswers (start sampleGlobals)
    (take 4 sampleSchedule).

(* the worker serves an "/execute" to its end, while a stranger and an
   allowed sender write *)
Definition sampleDay : list label * State :=
  fireAll sampleSniffer sampleAnswers (start sampleGlobals)
    (sampleSchedule
     ++ [ MCall 1%nat;
          MUpdate (sampleUpdate "stranger" 9 (Some "/execute"));
          MCall 0%nat; MCall 2%nat;
          MUpdate (sampleUpdate "telegram_id_2" 2 (Some "hello"));
          MCall 0%nat; MCall 3%nat; MCall 3%nat; MCall 0%nat; MCall 3%nat;
          MCall 0%nat; MCall 3%nat; MReturn 0%nat ]).

(* is goroutine i a worker at executeLock.Lock? *)
Definition atLock (σ : State) (i : nat) : bool :=
  match goroutines σ !! i with
  | Some (Worker (Vis c _)) => isExecuteLock c
  | _ => false
  end.

(** * Proofs *)

(** ** Strings and prefixes *)

Lemma prefix_inv (p s : string) :
  String.prefix p s = true -> ∃ rest, s = p +:+ rest.
Proof.
  revert s; induction p as [|a p IH]; intros s H.
  - by exists s.
  - destruct s as [|b s]; [discriminate|]. simpl in H.
    destruct (Ascii.ascii_dec a b) as [->|]; [|discriminate].
    destruct (IH _ H) as [rest ->]. by exists rest.
Qed.

Lemma length_positive (s : string) :
  s ≠ "" -> (0 <? String.length s)%nat = true.
Proof. by destruct s. Qed.

Lemma length_string_of_list_byte (bytes : list byte) :
  String.length (String.string_of_list_byte bytes) = length bytes.
Proof.
  induction bytes as [|b bytes IH]; [done|].
  unfold String.string_of_list_byte in *. simpl. by rewrite IH.
Qed.

Lemma string_of_list_byte_empty (bytes : list byte) :
  String.string_of_list_byte bytes = "" ↔ bytes = [].
Proof.
  split; [|by intros ->]. intros H.
  apply (f_equal String.length) in H.
  rewrite length_string_of_list_byte in H. by destruct bytes.
Qed.

(* the three commands exclude each other *)
Lemma showcode_not_start txt :
  HasPrefix txt commandShowCode = true -> HasPrefix txt commandStart = false.
Proof. intros [rest ->]%prefix_inv. reflexivity. Qed.

Lemma showcode_not_execute txt :
  HasPrefix txt commandShowCode = true -> HasPrefix txt commandExecute = false.
Proof. intros [rest ->]%prefix_inv. reflexivity. Qed.

Lemma execute_not_start txt :
  HasPrefix txt commandExecute = true -> HasPrefix txt commandStart = false.
Proof. intros [rest ->]%prefix_inv. reflexivity. Qed.

(** ** The session registry *)

Lemma isAvailableID_in_elem_of ids id :
  isAvailableID_in ids id = true ↔ id ∈ ids.
Proof.
  induction ids as [|v rest IH]; simpl.
  - split; [discriminate | intros H; inversion H].
  - destruct (String.eqb v id) eqn:E.
    + apply String.eqb_eq in E as ->. split; [intros _; left | done].
    + apply String.eqb_neq in E. rewrite IH, elem_of_cons.
      split; [by right | intros [?|?]; congruence].
Qed.

Lemma initSessions_from (ids : list string) (m : gmap string Session)
    (id : string) :
  foldl (fun sessions v =>
           <[ v := {| UserID := v; CurrentStatus := StatusWaiting |} ]> sessions)
        m ids !! id
  = if decide (id ∈ ids)
    then Some {| UserID := id; CurrentStatus := StatusWaiting |}
    else m !! id.
Proof.
  revert m; induction ids as [|v rest IH]; intros m.
  - case_decide as H; [inversion H | done].
  - cbn [foldl]. rewrite IH.
    destruct (decide (id ∈ rest)) as [Hin|Hnin].
    + rewrite decide_True; [done | by right].
    + destruct (decide (v = id)) as [->|Hne].
      * rewrite lookup_insert_eq, decide_True; [done | by left].
      * rewrite lookup_insert_ne by done.
        rewrite decide_False; [done|]. rewrite elem_of_cons.
        intros [?|?]; congruence.
Qed.

Lemma initSessions_lookup (ids : list string) (id : string) :
  initSessions ids !! id
  = if decide (id ∈ ids)
    then Some {| UserID := id; CurrentStatus := StatusWaiting |}
    else None.
Proof. unfold initSessions. by rewrite initSessions_from, lookup_empty. Qed.

Lemma initGlobals_waiting config id session :
  Sessions (pool (initGlobals config)) !! id = Some session ->
  CurrentStatus session = StatusWaiting.
Proof.
  simpl. rewrite initSessions_lookup. case_decide; [|done].
  by intros [= <-].
Qed.

(** ** Dispatch of one update *)

Lemma processUpdate_allowed g msg userID session :
  bot.From msg ≫= bot.Username = Some userID ->
  isAvailableID g userID = true ->
  Sessions (pool g) !! userID = Some session ->
  processUpdate g {| bot.UpdateMessage := Some msg |}
  = Vis PoolLock (fun _ =>
      (chooseMessage g session (textOf msg)
         ≫= replyOrEnqueue (bot.ID (bot.MessageChat msg)) replyOptions)
        ≫= fun result => Vis PoolUnlock (fun _ => Ret result)).
Proof.
  intros Hu Ha Hs. unfold processUpdate. cbn.
  destruct (bot.From msg) as [sender|]; cbn in Hu |- *; [|done].
  rewrite Hu, Ha. cbn. by rewrite Hs.
Qed.

Ltac run_calls :=
  cbn;
  repeat match goal with
    | |- context [bot.Ok ?r] => destruct (bot.Ok r); cbn
    | |- context [deref (bot.Description ?r)] =>
        destruct (bot.Description r); cbn
    end.

(* a message that is not empty is sent to the chat, once *)
Lemma reply_trace o n chat options message :
  message ≠ "" ->
  let tr := (exec o n (replyOrEnqueue chat options message
                         ≫= fun result => Vis PoolUnlock (fun _ => Ret result))).1 in
  sentMessages tr = [(chat, message, options)]
  ∧ enqueued tr = []
  ∧ outcome tr = ReplyWith message
  ∧ fileReads tr = [].
Proof.
  intros Hne. unfold replyOrEnqueue. rewrite (length_positive _ Hne).
  run_calls; done.
Qed.

(* the message that the switch chooses for each kind of text *)
Lemma showcode_message g session txt :
  CurrentStatus session = StatusWaiting ->
  HasPrefix txt commandShowCode = true ->
  chooseMessage g session txt = readCode g.
Proof.
  intros Hw H. unfold chooseMessage.
  by rewrite Hw, (showcode_not_start _ H), (showcode_not_execute _ H), H.
Qed.

Lemma execute_message g session txt :
  CurrentStatus session = StatusWaiting ->
  HasPrefix txt commandExecute = true ->
  chooseMessage g session txt = Ret "".
Proof.
  intros Hw H. unfold chooseMessage.
  by rewrite Hw, (execute_not_start _ H), H.
Qed.

Lemma fallback_message g session txt :
  CurrentStatus session = StatusWaiting ->
  HasPrefix txt commandStart = false ->
  HasPrefix txt commandExecute = false ->
  HasPrefix txt commandShowCode = false ->
  chooseMessage g session txt
  = Ret (if decide (txt = "") then messageUnknownCommand
         else txt +:+ ": " +:+ messageUnknownCommand).
Proof.
  intros Hw H1 H2 H3. unfold chooseMessage. rewrite Hw, H1, H2, H3.
  by destruct txt.
Qed.

Lemma append_not_empty (s t : string) : t ≠ "" -> s +:+ t ≠ "".
Proof. by destruct s, t. Qed.

(* the reply to a text that is no command *)
Lemma fallback_trace g (o : oracle) msg userID session :
  bot.From msg ≫= bot.Username = Some userID ->
  isAvailableID g userID = true ->
  Sessions (pool g) !! userID = Some session ->
  CurrentStatus session = StatusWaiting ->
  HasPrefix (textOf msg) commandStart = false ->
  HasPrefix (textOf msg) commandExecute = false ->
  HasPrefix (textOf msg) commandShowCode = false ->
  let message := if decide (textOf msg = "") then messageUnknownCommand
                 else textOf msg +:+ ": " +:+ messageUnknownCommand in
  let tr := trace o (processUpdate g {| bot.UpdateMessage := Some msg |}) in
  sentMessages tr = [(bot.ID (bot.MessageChat msg), message, replyOptions)]
  ∧ enqueued tr = []
  ∧ outcome tr = ReplyWith message.
Proof.
  intros Hu Ha Hs Hw H1 H2 H3 message tr. unfold tr, trace.
  rewrite (processUpdate_allowed _ _ _ _ Hu Ha Hs).
  rewrite (fallback_message g session _ Hw H1 H2 H3). cbn [exec fst].
  fold message.
  assert (Hne : message ≠ "").
  { unfold message. case_decide; [done|]. by apply append_not_empty. }
  destruct (reply_trace o 1 (bot.ID (bot.MessageChat msg)) replyOptions
              message Hne) as (Hsent & Hq & Hr & _).
  cbn in Hsent, Hq, Hr |- *. by rewrite Hsent, Hq, Hr.
Qed.

(** C6.  An update from an allowed identity with a session whose text starts
    with none of "/start", "/execute", "/showcode" is answered with
    "<text>: Unknown command." when the text is not empty and with
    "Unknown command." when it is empty (a message without text included);
    nothing is pushed to the queue. *)
Theorem unknown_command_reply (config : Config) (o : oracle)
    (msg : bot.Message) (userID : string) :
  let g := initGlobals config in
  let update := {| bot.UpdateMessage := Some msg |} in
  let txt := textOf msg in
  bot.From msg ≫= bot.Username = Some userID ->
  isAvailableID g userID = true ->
  is_Some (Sessions (pool g) !! userID) ->
  HasPrefix txt commandStart = false ->
  HasPrefix txt commandExecute = false ->
  HasPrefix txt commandShowCode = false ->
  (txt ≠ "" -> dispatch g o update = ReplyWith (txt +:+ ": Unknown command."))
  ∧ (txt = "" -> dispatch g o update = ReplyWith "Unknown command.")
  ∧ enqueued (trace o (processUpdate g update)) = [].
Proof.
  intros g update txt Hu Ha [session Hs] H1 H2 H3.
  pose proof (initGlobals_waiting _ _ _ Hs) as Hw.
  destruct (fallback_trace g o msg userID session Hu Ha Hs Hw H1 H2 H3)
    as (_ & Hq & Hr).
  unfold dispatch, update. cbn zeta in Hq, Hr. rewrite Hq, Hr. fold txt.
  split; [|split]; [intros Hne; by rewrite decide_False
                   | intros He; by rewrite decide_True | done].
Qed.

(** C5.  An update from an allowed identity with a session whose text starts
    with "/execute" pushes one request to the queue and sends no reply; the
    request carries the chat of the update and the options with the command
    keyboard. *)
Theorem execute_enqueues (config : Config) (o : oracle)
    (msg : bot.Message) (userID : string) :
  let g := initGlobals config in
  let update := {| bot.UpdateMessage := Some msg |} in
  let request := {| ChatID := bot.ID (bot.MessageChat msg);
                    MessageOptions := replyOptions |} in
  bot.From msg ≫= bot.Username = Some userID ->
  isAvailableID g userID = true ->
  is_Some (Sessions (pool g) !! userID) ->
  HasPrefix (textOf msg) commandExecute = true ->
  dispatch g o update = Enqueue request
  ∧ enqueued (trace o (processUpdate g update)) = [request]
  ∧ sentMessages (trace o (processUpdate g update)) = []
  ∧ MessageOptions request !! "reply_markup"
    = Some (OptReplyKeyboardMarkup
              {| bot.Keyboard := [ [ {| bot.Text := "/execute" |} ];
                                   [ {| bot.Text := "/showcode" |} ] ];
                 bot.ResizeKeyboard := true |}).
Proof.
  intros g update request Hu Ha [session Hs] Hx.
  pose proof (initGlobals_waiting _ _ _ Hs) as Hw.
  unfold dispatch, trace, update.
  rewrite (processUpdate_allowed _ _ _ _ Hu Ha Hs).
  rewrite (execute_message g session _ Hw Hx).
  repeat split.
Qed.

(** C2.  With a script file that is readable and empty, "/showcode" from an
    allowed identity with a session pushes a request to the queue and sends
    no reply: readCode yields the empty string for such a file, and the
    empty message is what the last part of processUpdate, which looks at the
    length of the message only, takes for a request to run the script. *)
Theorem showcode_empty_script_enqueues (config : Config) (o : oracle)
    (msg : bot.Message) (userID : string) :
  let g := initGlobals config in
  let update := {| bot.UpdateMessage := Some msg |} in
  let request := {| ChatID := bot.ID (bot.MessageChat msg);
                    MessageOptions := replyOptions |} in
  bot.From msg ≫= bot.Username = Some userID ->
  isAvailableID g userID = true ->
  is_Some (Sessions (pool g) !! userID) ->
  HasPrefix (textOf msg) commandShowCode = true ->
  fileReads (trace o (processUpdate g update)) = [(scriptPath g, inl [])] ->
  dispatch g o update = Enqueue request
  ∧ enqueued (trace o (processUpdate g update)) = [request]
  ∧ sentMessages (trace o (processUpdate g update)) = []
  ∧ (∀ (o' : oracle) n,
       o' n _ (ReadFile (scriptPath g)) = inl [] ->
       (exec o' n (readCode g)).2 = Some "")
  ∧ (∀ (o' : oracle) n,
       (exec o' n (replyOrEnqueue (ChatID request) replyOptions "")).1
       = [EvChanSend request]).
Proof.
  intros g update request Hu Ha [session Hs] Hx.
  pose proof (initGlobals_waiting _ _ _ Hs) as Hw.
  unfold dispatch, trace, update.
  rewrite (processUpdate_allowed _ _ _ _ Hu Ha Hs).
  rewrite (showcode_message g session _ Hw Hx).
  cbn. destruct (o 1%nat _ (ReadFile (ScriptPath config))) as [bytes|err];
    cbn; [intros [= -> _] | intros [=]].
  repeat split. intros o' n Hread. cbn in Hread |- *. by rewrite Hread.
Qed.


(** ** One request of the worker *)

#[local] Arguments String.string_of_list_byte : simpl never.

Ltac run_worker :=
  unfold trace, processExecuteRequest, executeAndRespond, sendMessageOrLog;
  cbn;
  repeat match goal with
    | |- context [snd (?o ?n _ (CombinedOutput ?p))] =>
        let bytes := fresh "bytes" in
        let err := fresh "err" in
        destruct (o n _ (CombinedOutput p)) as [bytes [err|]]; cbn
    | |- context [if HasPrefix ?s ?p then _ else _] =>
        let H := fresh "Hmime" in
        destruct (HasPrefix s p) eqn:H; cbn
    | |- context [bot.Ok (?o ?n _ ?c)] =>
        let d := fresh "description" in
        destruct (o n _ c) as [[|] [d|]]; cbn
    end.

Ltac find_event H :=
  cbn in H;
  repeat (destruct H as [H|H]; [try discriminate H; try (injection H as <-) |]);
  try contradiction.

Section WorkerTheorems.

Variable DetectContentType : list byte -> string.

(** C8.  When the run of the script fails, the worker sends one text
    message, "Error running script: <error> (<output>)", to the chat of the
    request, and no photo and no video; the message is logged, and when the
    send fails the description of the failure is logged too (a nil
    description makes the function panic before the log); nothing is sent
    again. *)
Theorem script_failure_reply (g : Globals) (o : oracle)
    (request : ExecuteRequest) (bytes : list byte) (err : error) :
  let tr := trace o (processExecuteRequest DetectContentType g request) in
  let message := "Error running script: " +:+ Error err +:+ " ("
                 +:+ String.string_of_list_byte bytes +:+ ")" in
  scriptRuns tr = [(scriptPath g, (bytes, Some err))] ->
  sentMessages tr = [(ChatID request, message, MessageOptions request)]
  ∧ sentPhotos tr = []
  ∧ sentVideos tr = []
  ∧ ∀ r, In (EvSendMessage (ChatID request) message (MessageOptions request) r) tr ->
      logged tr
      = ("*** " +:+ message)
        :: (if bot.Ok r then []
            else match bot.Description r with
                 | Some description =>
                     ["*** Failed to send error message: " +:+ description]
                 | None => []
                 end).
Proof.
  intros tr message. subst tr message. run_worker.
  all: intros [= -> <-] || (intros [=]; fail).
  all: repeat split.
  all: intros r Hin; find_event Hin; reflexivity.
Qed.

(** C7.  When the run of the script succeeds, the sniffed type of the output
    chooses the delivery: a type that starts with "image" sends the bytes as
    one photo and no video, else a type that starts with "video" sends them as
    one video and no photo, and any other type sends them as one text message
    and neither photo nor video.  A text message follows a photo or a video
    only when that send failed, and then it reports the failure; it goes out
    with the map of the request as the failed send left it, which holds the
    chat and the photo or video besides the options of the request. *)
Theorem output_classification (g : Globals) (o : oracle)
    (request : ExecuteRequest) (bytes : list byte) :
  let tr := trace o (processExecuteRequest DetectContentType g request) in
  let chat := ChatID request in
  let options := MessageOptions request in
  let file := bot.InputFileFromBytes bytes in
  let mime := DetectContentType bytes in
  scriptRuns tr = [(scriptPath g, (bytes, None))] ->
  if HasPrefix mime "image" then
    sentPhotos tr = [(chat, file)]
    ∧ sentVideos tr = []
    ∧ ∀ r, In (EvSendPhoto chat file options r) tr ->
        sentMessages tr
        = if bot.Ok r then []
          else match bot.Description r with
               | Some description =>
                   [(chat, "Failed to send photo: " +:+ description,
                     afterSendPhoto chat file options)]
               | None => []
               end
  else if HasPrefix mime "video" then
    sentVideos tr = [(chat, file)]
    ∧ sentPhotos tr = []
    ∧ ∀ r, In (EvSendVideo chat file options r) tr ->
        sentMessages tr
        = if bot.Ok r then []
          else match bot.Description r with
               | Some description =>
                   [(chat, "Failed to send video: " +:+ description,
                     afterSendVideo chat file options)]
               | None => []
               end
  else
    sentMessages tr = [(chat, String.string_of_list_byte bytes, options)]
    ∧ sentPhotos tr = []
    ∧ sentVideos tr = [].
Proof.
  intros tr chat options file mime. subst tr chat options file mime.
  run_worker.
  all: intros [= ->] || (intros [=]; fail).
  all: try congruence.
  all: repeat split.
  all: intros r Hin; find_event Hin; reflexivity.
Qed.

End WorkerTheorems.


(** ** Programs and executeLock *)

Lemma lockFree_bind {A B} (p : prog A) (f : A -> prog B) :
  lockFree p -> (∀ a, lockFree (f a)) -> lockFree (p ≫= f).
Proof.
  intros Hp Hf. induction p as [a| |X c k IH]; cbn; [apply Hf | done |].
  destruct Hp as (Hl & Hu & Hk). repeat split; [done | done |].
  intros x. apply IH, Hk.
Qed.

Lemma lockFree_mret {A} (a : A) : lockFree (mret a : prog A).
Proof. exact I. Qed.

Lemma lockFree_deref {A} (p : option A) : lockFree (deref p).
Proof. by destruct p. Qed.

Ltac lock_free :=
  repeat first
    [ apply lockFree_mret
    | apply lockFree_deref
    | exact I
    | apply lockFree_bind; [|intro]
    | match goal with
      | |- lockFree (trigger _) => repeat split
      | |- lockFree (match ?x with _ => _ end) => destruct x
      | |- lockFree (let _ := _ in _) => cbv zeta
      end ].

Lemma processUpdate_lockFree g update : lockFree (processUpdate g update).
Proof.
  unfold processUpdate, chooseMessage, readCode, replyOrEnqueue. lock_free.
Qed.

Lemma executeAndRespond_lockFree D g request :
  lockFree (executeAndRespond D g request).
Proof. unfold executeAndRespond, sendMessageOrLog. lock_free. Qed.

Lemma defer_unlock_holding {R} (body : prog R) :
  lockFree body -> holding (defer (trigger ExecuteLockUnlock) body).
Proof.
  induction body as [r| |X c k IH]; cbn; [done | done |].
  intros (Hl & Hu & Hk). rewrite Hu. split; [done|].
  intros x. apply IH, Hk.
Qed.

Lemma processExecuteRequest_acquiring D g request :
  acquiring (processExecuteRequest D g request).
Proof.
  change (acquiring
            (Vis ExecuteLockLock
               (fun _ => defer (trigger ExecuteLockUnlock)
                           (executeAndRespond D g request)))).
  split; [done|]. intros _.
  apply defer_unlock_holding, executeAndRespond_lockFree.
Qed.

(** ** Runs of the process *)

Lemma inFlight_snoc ls l : inFlight (ls ++ [l]) = inFlightAfter (inFlight ls) l.
Proof. unfold inFlight. by rewrite foldl_app. Qed.

Lemma event_of_lock {X} (c : call X) (x : X) :
  event_of c x = EvExecuteLockLock ↔ isExecuteLock c = true.
Proof. by destruct c. Qed.

Lemma event_of_unlock {X} (c : call X) (x : X) :
  event_of c x = EvExecuteLockUnlock ↔ isExecuteUnlock c = true.
Proof. by destruct c. Qed.

(* a call that is not on executeLock leaves the lock and the goroutines in
   flight as they are *)
Lemma other_call_inFlight {X} (c : call X) (x : X) holders i :
  isExecuteLock c = false -> isExecuteUnlock c = false ->
  inFlightAfter holders (LCall i (event_of c x)) = holders.
Proof. by destruct c. Qed.

Lemma other_call_executeLocked {X} (c : call X) σ :
  isExecuteLock c = false -> isExecuteUnlock c = false ->
  executeLocked (effect c σ) = executeLocked σ.
Proof. by destruct c. Qed.

Lemma effect_goroutines {X} (c : call X) σ :
  goroutines (effect c σ) = goroutines σ.
Proof. by destruct c. Qed.

Lemma effect_globals {X} (c : call X) σ : globals (effect c σ) = globals σ.
Proof. by destruct c. Qed.

Lemma lock_call {X} (c : call X) σ :
  isExecuteLock c = true ->
  enabled c σ = negb (executeLocked σ) ∧ executeLocked (effect c σ) = true.
Proof. by destruct c. Qed.

Lemma unlock_call {X} (c : call X) σ :
  isExecuteUnlock c = true ->
  enabled c σ = executeLocked σ ∧ executeLocked (effect c σ) = false.
Proof. by destruct c. Qed.

Lemma filter_other_singleton (i : nat) : filter (fun j => j ≠ i) [i] = [].
Proof. rewrite filter_cons_False; [done | by intros ?]. Qed.

Lemma goroutineShape_other holders holders' j gr :
  (j ∈ holders' ↔ j ∈ holders) ->
  goroutineShape holders j gr -> goroutineShape holders' j gr.
Proof.
  intros Hiff. destruct gr as [p| |p]; cbn.
  - by rewrite Hiff.
  - by rewrite Hiff.
  - destruct (decide (j ∈ holders)), (decide (j ∈ holders')); tauto.
Qed.

Lemma lockInvariant_start workers g : lockInvariant [] (startWith workers g).
Proof.
  split; [done|]. split; [by intros i ?%elem_of_nil|].
  intros i gr [-> _]%lookup_replicate. cbn. apply not_elem_of_nil.
Qed.

#[local] Arguments processExecuteRequest : simpl never.
#[local] Arguments processUpdate : simpl never.

Lemma lockInvariant_step D ls σ l σ' :
  lockInvariant ls σ -> step D σ l σ' -> lockInvariant (ls ++ [l]) σ'.
Proof.
  intros (Hlock & Hbound & Hshape) Hstep.
  unfold lockInvariant. rewrite inFlight_snoc.
  destruct Hstep as [σ update Hmsg | σ i p e p' σ' Hi Hcall
                    | σ i p e p' σ' Hi Hcall | σ i request rest Hi Hch
                    | σ i r Hi].
  - (* a new call of processUpdate *)
    cbn. split; [done|]. split.
    + intros i Hin. rewrite length_app. cbn. specialize (Hbound i Hin). lia.
    + intros i gr Hgr. apply lookup_app_Some in Hgr as [Hgr|[Hlen Hgr]].
      * by apply Hshape.
      * apply list_lookup_singleton_Some in Hgr as [Hz <-].
        split; [apply processUpdate_lockFree|].
        intros Hin%Hbound. lia.
  - (* a call of processUpdate moves *)
    destruct p as [r| |X c k]; [done | done |].
    destruct Hcall as (Hen & x & -> & -> & ->).
    destruct (Hshape _ _ Hi) as ((Hl & Hu & Hk) & Hnot).
    rewrite (other_call_inFlight c x _ i Hl Hu). cbn.
    rewrite (other_call_executeLocked c σ Hl Hu), effect_goroutines.
    split; [done|]. split.
    + intros j Hin. rewrite length_insert. by apply Hbound.
    + intros j gr Hgr. apply list_lookup_insert_Some in Hgr
        as [(<- & <- & _)|(Hne & Hgr)]; [by split | by apply Hshape].
  - (* the worker moves inside processExecuteRequest *)
    destruct p as [r| |X c k]; [done | done |].
    destruct Hcall as (Hen & x & -> & -> & ->).
    pose proof (Hshape _ _ Hi) as Hp. cbn in Hp.
    cbn [executeLocked goroutines setGoroutines].
    rewrite effect_goroutines.
    destruct (decide (i ∈ inFlight ls)) as [Hin|Hnot].
    + destruct Hp as (Hl & Hp). destruct (isExecuteUnlock c) eqn:Hu.
      * (* Unlock *)
        destruct (unlock_call c σ Hu) as (Hen' & ->).
        rewrite Hen' in Hen. rewrite Hen in Hlock. destruct Hlock as [j Hj].
        rewrite Hj in Hin. apply list_elem_of_singleton in Hin as ->.
        rewrite (proj2 (event_of_unlock c x) Hu). cbn [inFlightAfter].
        rewrite Hj, filter_other_singleton.
        split; [done|]. split; [by intros ? ?%elem_of_nil|].
        intros i gr Hgr. apply list_lookup_insert_Some in Hgr
          as [(<- & <- & _)|(Hne & Hgr)].
        -- cbn. rewrite decide_False by apply not_elem_of_nil. right. apply Hp.
        -- apply (goroutineShape_other (inFlight ls)); [|by apply Hshape].
           rewrite Hj, list_elem_of_singleton.
           split; [by intros ?%elem_of_nil | done].
      * (* a call under the lock *)
        rewrite (other_call_inFlight c x _ i Hl Hu).
        rewrite (other_call_executeLocked c σ Hl Hu).
        split; [done|]. split.
        -- intros j Hj. rewrite length_insert. by apply Hbound.
        -- intros j gr Hgr. apply list_lookup_insert_Some in Hgr
             as [(<- & <- & _)|(Hne & Hgr)]; [|by apply Hshape].
           cbn. rewrite decide_True by done. apply Hp.
    + (* Lock *)
      destruct Hp as [(Hl & Hk)|[]].
      destruct (lock_call c σ Hl) as (Hen' & ->).
      rewrite Hen' in Hen. apply negb_true_iff in Hen.
      rewrite Hen in Hlock.
      rewrite (proj2 (event_of_lock c x) Hl). cbn [inFlightAfter].
      rewrite Hlock. cbn [app].
      split; [by exists i|]. split.
      * intros j ->%list_elem_of_singleton. rewrite length_insert.
        by apply lookup_lt_Some in Hi.
      * intros j gr Hgr. apply list_lookup_insert_Some in Hgr
          as [(<- & <- & _)|(Hne & Hgr)].
        -- cbn. rewrite decide_True by apply list_elem_of_singleton, eq_refl.
           apply Hk.
        -- apply (goroutineShape_other (inFlight ls)); [|by apply Hshape].
           rewrite Hlock, list_elem_of_singleton.
           split; [done | by intros ?%elem_of_nil].
  - (* the worker receives a request *)
    cbn. split; [done|]. split.
    + intros j Hj. rewrite length_insert. by apply Hbound.
    + intros j gr Hgr. apply list_lookup_insert_Some in Hgr
        as [(<- & <- & _)|(Hne & Hgr)]; [|by apply Hshape].
      pose proof (Hshape _ _ Hi) as Hp. cbn in Hp.
      cbn. rewrite decide_False by done. left.
      apply processExecuteRequest_acquiring.
  - (* the worker is back at the loop *)
    cbn. split; [done|]. split.
    + intros j Hj. rewrite length_insert. by apply Hbound.
    + intros j gr Hgr. apply list_lookup_insert_Some in Hgr
        as [(<- & <- & _)|(Hne & Hgr)]; [|by apply Hshape].
      pose proof (Hshape _ _ Hi) as Hp. cbn in Hp.
      cbn. by destruct (decide (_ ∈ inFlight ls)).
Qed.

Lemma lockInvariant_steps D workers g ls σ :
  steps D (startWith workers g) ls σ -> lockInvariant ls σ.
Proof.
  induction 1 as [|ls σ l σ' _ IH Hstep].
  - apply lockInvariant_start.
  - by apply (lockInvariant_step D ls σ).
Qed.


(** ** The execution lock *)

Lemma exec_defer_unlock {R} (o : oracle) (n : nat) (body : prog R) :
  (exec o n (defer (trigger ExecuteLockUnlock) body)).1
  = (exec o n body).1 ++ [EvExecuteLockUnlock].
Proof.
  revert n. induction body as [r| |X c k IH]; intros n; [done | done |].
  cbn. by rewrite IH.
Qed.

Lemma lockFree_trace {R} (o : oracle) (n : nat) (p : prog R) :
  lockFree p -> Forall (fun e => isExecuteLockEvent e = false) (exec o n p).1.
Proof.
  revert n. induction p as [r| |X c k IH]; intros n Hp; cbn; [done | done |].
  destruct Hp as (Hl & Hu & Hk). constructor; [|by apply IH].
  by destruct c.
Qed.

Lemma executeAndRespond_runs_script D g request o n :
  length (scriptRuns (exec o n (executeAndRespond D g request)).1) = 1%nat.
Proof. run_worker; reflexivity. Qed.

Lemma processExecuteRequest_trace D g request o :
  trace o (processExecuteRequest D g request)
  = EvExecuteLockLock
      :: (exec o 1 (executeAndRespond D g request)).1 ++ [EvExecuteLockUnlock].
Proof.
  unfold trace, processExecuteRequest. cbn. by rewrite exec_defer_unlock.
Qed.

(** C3.  processExecuteRequest takes executeLock first and gives it back
    last, whatever the script and the sends do (failures and panics
    included), and the script runs in between.  In every run of the process,
    with any number of workers, at most one goroutine is between Lock and
    Unlock; a worker makes every call other than the Lock while it is the
    goroutine in flight, and it is back at the loop only after the Unlock. *)
Theorem execute_lock_exclusion (DetectContentType : list byte -> string) :
  (∀ g o request, ∃ mid,
      trace o (processExecuteRequest DetectContentType g request)
      = EvExecuteLockLock :: mid ++ [EvExecuteLockUnlock]
      ∧ Forall (fun e => isExecuteLockEvent e = false) mid
      ∧ length (scriptRuns mid) = 1%nat)
  ∧ (∀ workers g ls σ,
       steps DetectContentType (startWith workers g) ls σ ->
       (length (inFlight ls) ≤ 1)%nat
       ∧ (∀ i p e σ',
            goroutines σ !! i = Some (Worker p) ->
            step DetectContentType σ (LCall i e) σ' ->
            e = EvExecuteLockLock ∨ i ∈ inFlight ls)
       ∧ (∀ i σ', step DetectContentType σ (LReturn i) σ' ->
                  i ∉ inFlight ls)).
Proof.
  split.
  - intros g o request.
    exists (exec o 1 (executeAndRespond DetectContentType g request)).1.
    split; [apply processExecuteRequest_trace|]. split.
    + apply lockFree_trace, executeAndRespond_lockFree.
    + apply executeAndRespond_runs_script.
  - intros workers g ls σ Hsteps.
    destruct (lockInvariant_steps _ _ _ _ _ Hsteps) as (Hlock & _ & Hshape).
    split; [|split].
    + destruct (executeLocked σ); [destruct Hlock as [i ->] | rewrite Hlock];
        cbn; lia.
    + intros i p e σ' Hi Hstep.
      pose proof (Hshape _ _ Hi) as Hp. cbn in Hp.
      destruct (decide (i ∈ inFlight ls)) as [Hin|Hnot]; [by right | left].
      inversion Hstep as [ | ? ? q ? q' ? Hq Hcall | ? ? q ? q' ? Hq Hcall | | ];
        subst; simplify_eq.
      destruct Hp as [Hp|Hp]; destruct p as [r| |X c k]; try done.
      destruct Hcall as (_ & x & -> & _).
      by apply event_of_lock, Hp.
    + intros i σ' Hstep.
      inversion Hstep as [ | | | | ? ? r Hi]; subst.
      pose proof (Hshape _ _ Hi) as Hp. cbn in Hp.
      by destruct (decide (i ∈ inFlight ls)).
Qed.


(** ** The execution queue *)

Lemma pushed_app ls ls' : pushed (ls ++ ls') = pushed ls ++ pushed ls'.
Proof.
  induction ls as [|l ls IH]; [done|].
  destruct l as [| i e | |]; cbn; try done.
  destruct e; cbn; by rewrite ?IH.
Qed.

Lemma popped_app ls ls' : popped (ls ++ ls') = popped ls ++ popped ls'.
Proof.
  induction ls as [|l ls IH]; [done|].
  destruct l; cbn; by rewrite ?IH.
Qed.

(* what a call does to the channel, and what it adds to the pushes *)
Lemma call_channel {X} (c : call X) (x : X) (i : nat) σ :
  enabled c σ = true ->
  executeChannel (effect c σ)
  = executeChannel σ ++ pushed [LCall i (event_of c x)]
  ∧ (length (executeChannel (effect c σ)) ≤ numQueue
     ∨ executeChannel (effect c σ) = executeChannel σ)%nat.
Proof.
  destruct c; cbn -[Nat.ltb]; intros Hen; rewrite ?app_nil_r;
    try (split; [done | by right]).
  split; [done|]. left. rewrite length_app. cbn.
  apply Nat.ltb_lt in Hen. unfold numQueue in *. lia.
Qed.

Lemma queueInvariant_step D ls σ l σ' :
  queueInvariant ls σ -> step D σ l σ' -> queueInvariant (ls ++ [l]) σ'.
Proof.
  intros (Hlen & Hfifo) Hstep. unfold queueInvariant.
  rewrite pushed_app, popped_app, Hfifo.
  destruct Hstep as [σ update Hmsg | σ i p e p' σ' Hi Hcall
                    | σ i p e p' σ' Hi Hcall | σ i request rest Hi Hch
                    | σ i r Hi].
  - cbn. by rewrite !app_nil_r.
  - destruct p as [r| |X c k]; [done | done |].
    destruct Hcall as (Hen & x & -> & -> & ->).
    destruct (call_channel c x i σ Hen) as (Hch & Hbound).
    cbn [executeChannel setGoroutines popped]. rewrite Hch, app_nil_r, app_assoc.
    split; [|done]. destruct Hbound as [Hb|Hb]; rewrite <- Hch; [done|].
    by rewrite Hb.
  - destruct p as [r| |X c k]; [done | done |].
    destruct Hcall as (Hen & x & -> & -> & ->).
    destruct (call_channel c x i σ Hen) as (Hch & Hbound).
    cbn [executeChannel setGoroutines popped]. rewrite Hch, app_nil_r, app_assoc.
    split; [|done]. destruct Hbound as [Hb|Hb]; rewrite <- Hch; [done|].
    by rewrite Hb.
  - cbn. rewrite Hch in Hlen |- *. cbn in Hlen. split; [lia|].
    by rewrite app_nil_r, <- app_assoc.
  - cbn. by rewrite !app_nil_r.
Qed.

Lemma queueInvariant_steps D workers g ls σ :
  steps D (startWith workers g) ls σ -> queueInvariant ls σ.
Proof.
  induction 1 as [|ls σ l σ' _ IH Hstep].
  - split; [cbn; lia | done].
  - by apply (queueInvariant_step D ls σ).
Qed.

Lemma full_channel_call {X} (c : call X) σ :
  length (executeChannel σ) = numQueue -> enabled c σ = true ->
  executeChannel (effect c σ) = executeChannel σ.
Proof.
  intros Hfull. destruct c; cbn -[Nat.ltb]; try done.
  rewrite Hfull. by rewrite Nat.ltb_irrefl.
Qed.

Lemma waitingToPush_blocked D σ i request k :
  waitingToPush σ i request k -> blocked D σ i.
Proof.
  intros (Hi & Hfull) l σ' Hstep Hactor.
  destruct Hstep as [σ update Hmsg | σ j p e p' σ' Hj Hcall
                    | σ j p e p' σ' Hj Hcall | σ j r rest Hj Hch
                    | σ j r Hj]; cbn in Hactor; simplify_eq.
  cbn -[Nat.ltb] in Hcall. destruct Hcall as (Hen & _).
  rewrite Hfull in Hen. by rewrite Nat.ltb_irrefl in Hen.
Qed.

Lemma waitingToPush_step D σ i request k l σ' :
  waitingToPush σ i request k -> step D σ l σ' -> isReceive l = false ->
  waitingToPush σ' i request k.
Proof.
  intros Hw Hstep Hl. pose proof (waitingToPush_blocked D _ _ _ _ Hw) as Hb.
  specialize (Hb _ _ Hstep). destruct Hw as (Hi & Hfull).
  destruct Hstep as [σ update Hmsg | σ j p e p' σ' Hj Hcall
                    | σ j p e p' σ' Hj Hcall | σ j r rest Hj Hch
                    | σ j r Hj]; cbn in Hb, Hl; try done.
  - split; [|done]. cbn. by apply lookup_app_l_Some.
  - destruct p as [r| |X c k']; [done | done |].
    destruct Hcall as (Hen & x & -> & -> & ->).
    split; cbn.
    + rewrite effect_goroutines, list_lookup_insert_ne; [done | congruence].
    + by rewrite (full_channel_call c σ Hfull Hen).
  - destruct p as [r| |X c k']; [done | done |].
    destruct Hcall as (Hen & x & -> & -> & ->).
    split; cbn.
    + rewrite effect_goroutines, list_lookup_insert_ne; [done | congruence].
    + by rewrite (full_channel_call c σ Hfull Hen).
  - split; [|done]. cbn. rewrite list_lookup_insert_ne; [done | congruence].
Qed.

Lemma waitingToPush_steps D σ i request k ls σ' :
  waitingToPush σ i request k -> steps D σ ls σ' ->
  Forall (fun l => isReceive l = false) ls ->
  waitingToPush σ' i request k.
Proof.
  intros Hw Hsteps. induction Hsteps as [|ls σ1 l σ2 _ IH Hstep]; [done|].
  intros [Hls Hl]%Forall_app. rewrite Forall_singleton in Hl.
  apply (waitingToPush_step D σ1 _ _ _ l); [by apply IH | done | exact Hl].
Qed.

Lemma waitingToPush_receive D σ i request k j r σ' :
  waitingToPush σ i request k -> step D σ (LReceive j r) σ' ->
  executeChannel σ = r :: executeChannel σ'
  ∧ ∃ σ'', step D σ' (LCall i (EvChanSend request)) σ''.
Proof.
  intros (Hi & Hfull) Hstep.
  inversion Hstep as [ | | | ? ? ? rest Hj Hch | ]; subst.
  split; [done|].
  eexists. eapply (step_handler _ _ i _ _ (k tt)).
  - cbn. rewrite list_lookup_insert_ne; [exact Hi | congruence].
  - cbn -[Nat.ltb]. split; [|by exists tt].
    rewrite Hch in Hfull. cbn in Hfull. apply Nat.ltb_lt.
    unfold numQueue in *. lia.
Qed.

(** C4.  In every run the channel holds at most numQueue = 4 requests, and
    the requests sent are the requests received followed by the ones still
    in the channel, in this order (first in, first out).  A call of
    processUpdate that is at its send while the channel holds 4 requests
    cannot move; it stays so through any steps that contain no receive, and
    once a worker receives (the oldest request) the send can proceed. *)
Theorem execute_queue_bounded_fifo (DetectContentType : list byte -> string)
    (workers : nat) (g : Globals) (ls : list label) (σ : State) :
  steps DetectContentType (startWith workers g) ls σ ->
  numQueue = 4%nat
  ∧ (length (executeChannel σ) ≤ numQueue)%nat
  ∧ pushed ls = popped ls ++ executeChannel σ
  ∧ (∀ i request k,
       goroutines σ !! i = Some (Handler (Vis (ChanSend request) k)) ->
       length (executeChannel σ) = numQueue ->
       blocked DetectContentType σ i
       ∧ (∀ ls' σ',
            steps DetectContentType σ ls' σ' ->
            Forall (fun l => isReceive l = false) ls' ->
            goroutines σ' !! i = Some (Handler (Vis (ChanSend request) k))
            ∧ length (executeChannel σ') = numQueue
            ∧ blocked DetectContentType σ' i)
       ∧ (∀ j r σ',
            step DetectContentType σ (LReceive j r) σ' ->
            executeChannel σ = r :: executeChannel σ'
            ∧ ∃ σ'', step DetectContentType σ'
                       (LCall i (EvChanSend request)) σ'')).
Proof.
  intros Hsteps.
  destruct (queueInvariant_steps _ _ _ _ _ Hsteps) as (Hlen & Hfifo).
  split; [done|]. split; [done|]. split; [done|].
  intros i request k Hi Hfull.
  assert (Hw : waitingToPush σ i request k) by done.
  split; [by apply (waitingToPush_blocked _ _ _ request k)|]. split.
  - intros ls' σ' Hsteps' Hls'.
    pose proof (waitingToPush_steps _ _ _ _ _ _ _ Hw Hsteps' Hls') as Hw'.
    destruct Hw' as (Hi' & Hfull').
    split; [done|]. split; [done|].
    by apply (waitingToPush_blocked _ _ _ request k).
  - intros j r σ' Hstep.
    by apply (waitingToPush_receive _ σ i request k j r σ').
Qed.

(** ** The registry in a run *)

Lemma globals_step D σ l σ' : step D σ l σ' -> globals σ' = globals σ.
Proof.
  destruct 1 as [σ update Hmsg | σ i p e p' σ' Hi Hcall
                | σ i p e p' σ' Hi Hcall | σ i request rest Hi Hch
                | σ i r Hi]; try done.
  - destruct p as [r| |X c k]; [done | done |].
    destruct Hcall as (Hen & x & -> & -> & ->). cbn. apply effect_globals.
  - destruct p as [r| |X c k]; [done | done |].
    destruct Hcall as (Hen & x & -> & -> & ->). cbn. apply effect_globals.
Qed.

Lemma globals_steps D σ0 ls σ : steps D σ0 ls σ -> globals σ = globals σ0.
Proof.
  induction 1 as [|ls σ l σ' _ IH Hstep]; [done|].
  by rewrite (globals_step _ _ _ _ Hstep).
Qed.

(** C9.  When init succeeds the registry has, for every identity of the
    allow-list, the session of that identity in state Waiting, and nothing
    for any other identity; its keys are the identities of the allow-list,
    which are the identities that isAvailableID accepts.  No step of the
    process changes the allow-list or the registry. *)
Theorem registry_is_allow_list (DetectContentType : list byte -> string)
    (getConfig : Config + error) (g : Globals) :
  init getConfig = Some g ->
  (∀ id, id ∈ allowedIds g ->
         Sessions (pool g) !! id
         = Some {| UserID := id; CurrentStatus := StatusWaiting |})
  ∧ (∀ id, id ∉ allowedIds g -> Sessions (pool g) !! id = None)
  ∧ dom (Sessions (pool g)) = list_to_set (allowedIds g)
  ∧ (∀ id, isAvailableID g id = true ↔ is_Some (Sessions (pool g) !! id))
  ∧ (∀ workers ls σ,
       steps DetectContentType (startWith workers g) ls σ ->
       allowedIds (globals σ) = allowedIds g
       ∧ pool (globals σ) = pool g
       ∧ (∀ id, id ∈ allowedIds (globals σ)
                ↔ is_Some (Sessions (pool (globals σ)) !! id))).
Proof.
  destruct getConfig as [config|err]; [|done]. intros [= <-].
  assert (Hlookup : ∀ id, id ∈ allowedIds (initGlobals config)
                          ↔ is_Some (Sessions (pool (initGlobals config)) !! id)).
  { intros id. cbn. rewrite initSessions_lookup.
    case_decide; split; try done. }
  split; [|split; [|split; [|split]]].
  - intros id Hin. cbn. rewrite initSessions_lookup. by rewrite decide_True.
  - intros id Hnot. cbn. rewrite initSessions_lookup. by rewrite decide_False.
  - apply set_eq. intros id.
    by rewrite elem_of_dom, elem_of_list_to_set, Hlookup.
  - intros id. unfold isAvailableID.
    by rewrite isAvailableID_in_elem_of, Hlookup.
  - intros workers ls σ Hsteps.
    rewrite (globals_steps _ _ _ _ Hsteps). cbn [globals startWith].
    split; [done|]. split; [done|]. apply Hlookup.
Qed.


(** ** "/showcode" *)

#[local] Arguments replyOrEnqueue : simpl never.

Lemma showcode_trace g (o : oracle) msg userID session :
  bot.From msg ≫= bot.Username = Some userID ->
  isAvailableID g userID = true ->
  Sessions (pool g) !! userID = Some session ->
  CurrentStatus session = StatusWaiting ->
  HasPrefix (textOf msg) commandShowCode = true ->
  let r := o 1%nat _ (ReadFile (scriptPath g)) in
  trace o (processUpdate g {| bot.UpdateMessage := Some msg |})
  = EvPoolLock :: EvReadFile (scriptPath g) r
      :: (exec o 2 (replyOrEnqueue (bot.ID (bot.MessageChat msg)) replyOptions
                      (codeMessage r)
                    ≫= fun result => Vis PoolUnlock (fun _ => Ret result))).1.
Proof.
  intros Hu Ha Hs Hw Hx r. unfold trace.
  rewrite (processUpdate_allowed _ _ _ _ Hu Ha Hs).
  rewrite (showcode_message g session _ Hw Hx).
  cbn. fold r. by destruct r.
Qed.

(* what "/showcode" does when the script file holds something or cannot be
   read *)
Lemma showcode_reply (config : Config) (o : oracle) (msg : bot.Message)
    (userID : string) (r : list byte + error) :
  let g := initGlobals config in
  let update := {| bot.UpdateMessage := Some msg |} in
  let tr := trace o (processUpdate g update) in
  bot.From msg ≫= bot.Username = Some userID ->
  isAvailableID g userID = true ->
  is_Some (Sessions (pool g) !! userID) ->
  HasPrefix (textOf msg) commandShowCode = true ->
  fileReads tr = [(scriptPath g, r)] ->
  r ≠ inl [] ->
  let message := match r with
                 | inl bytes => String.string_of_list_byte bytes
                 | inr err => "Error: " +:+ Error err
                 end in
  dispatch g o update = ReplyWith message
  ∧ sentMessages tr = [(bot.ID (bot.MessageChat msg), message, replyOptions)]
  ∧ enqueued tr = [].
Proof.
  intros g update tr Hu Ha [session Hs] Hx.
  pose proof (initGlobals_waiting _ _ _ Hs) as Hw.
  unfold dispatch, tr, update.
  rewrite (showcode_trace g o msg userID session Hu Ha Hs Hw Hx).
  cbn [fileReads outcome sentMessages enqueued].
  intros [= Hr] Hne.
  change (ScriptPath config) with (scriptPath g) in Hr. rewrite Hr.
  assert (Hm : codeMessage r ≠ "").
  { destruct r as [bytes|err]; [|done]. cbn.
    rewrite string_of_list_byte_empty. by intros ->. }
  destruct (reply_trace o 2 (bot.ID (bot.MessageChat msg)) replyOptions
              _ Hm) as (Hsent & Hq & Hout & _).
  cbn zeta in Hsent, Hq, Hout. rewrite Hsent, Hq, Hout. by destruct r.
Qed.

(** ** The earlier copy *)

Lemma legacy_chooseMessage g session txt :
  txt ≠ "" -> Legacy.chooseMessage g session txt = chooseMessage g session txt.
Proof.
  intros Hne. unfold Legacy.chooseMessage, chooseMessage.
  by rewrite (length_positive _ Hne).
Qed.

Lemma legacy_isAvailableId g id :
  Legacy.isAvailableId g id = isAvailableID g id.
Proof.
  unfold Legacy.isAvailableId, isAvailableID.
  induction (allowedIds g) as [|v rest IH]; [done|].
  cbn. by rewrite IH.
Qed.

#[local] Arguments Legacy.isAvailableId : simpl never.
#[local] Arguments isAvailableID : simpl never.

Lemma legacy_processUpdate g msg :
  textOf msg ≠ "" ->
  Legacy.processUpdate g {| bot.UpdateMessage := Some msg |}
  = processUpdate g {| bot.UpdateMessage := Some msg |}.
Proof.
  intros Hne. unfold Legacy.processUpdate, processUpdate. cbn.
  destruct (bot.From msg) as [sender|]; cbn; [|done].
  destruct (bot.Username sender) as [userID|]; [|done].
  rewrite legacy_isAvailableId.
  destruct (isAvailableID g userID); [|done]. cbn.
  destruct (Sessions (pool g) !! userID) as [session|]; [|done].
  by rewrite (legacy_chooseMessage _ _ _ Hne).
Qed.

Lemma legacy_fallback_message g session :
  CurrentStatus session = StatusWaiting ->
  Legacy.chooseMessage g session "" = Ret ": Unknown command.".
Proof. intros Hw. unfold Legacy.chooseMessage. by rewrite Hw. Qed.

Lemma legacy_processUpdate_allowed g msg userID session :
  bot.From msg ≫= bot.Username = Some userID ->
  isAvailableID g userID = true ->
  Sessions (pool g) !! userID = Some session ->
  Legacy.processUpdate g {| bot.UpdateMessage := Some msg |}
  = Vis PoolLock (fun _ =>
      (Legacy.chooseMessage g session (textOf msg)
         ≫= Legacy.replyOrEnqueue (bot.ID (bot.MessageChat msg)) replyOptions)
        ≫= fun result => Vis PoolUnlock (fun _ => Ret result)).
Proof.
  intros Hu Ha Hs. unfold Legacy.processUpdate. cbn.
  destruct (bot.From msg) as [sender|]; cbn in Hu |- *; [|done].
  rewrite Hu, legacy_isAvailableId, Ha. cbn. by rewrite Hs.
Qed.

(** C10.  On an update whose text is not empty the earlier copy of
    processUpdate (main.go) is the same program as the later one, so both
    make the same calls, send the same reply or push the same request and
    return the same result.  On an update with empty text from an allowed
    identity with a session they differ: the later copy replies
    "Unknown command.", the earlier one ": Unknown command.". *)
Theorem legacy_differs_on_empty_text_only (config : Config) (o : oracle)
    (msg : bot.Message) (userID : string) :
  let g := initGlobals config in
  let update := {| bot.UpdateMessage := Some msg |} in
  (textOf msg ≠ "" ->
     Legacy.processUpdate g update = processUpdate g update
     ∧ trace o (Legacy.processUpdate g update) = trace o (processUpdate g update)
     ∧ result o (Legacy.processUpdate g update) = result o (processUpdate g update)
     ∧ outcome (trace o (Legacy.processUpdate g update)) = dispatch g o update)
  ∧ (textOf msg = "" ->
     bot.From msg ≫= bot.Username = Some userID ->
     isAvailableID g userID = true ->
     is_Some (Sessions (pool g) !! userID) ->
     dispatch g o update = ReplyWith "Unknown command."
     ∧ outcome (trace o (Legacy.processUpdate g update))
       = ReplyWith ": Unknown command.").
Proof.
  intros g update. split.
  - intros Hne. unfold dispatch, update.
    by rewrite (legacy_processUpdate g msg Hne).
  - intros He Hu Ha [session Hs].
    pose proof (initGlobals_waiting _ _ _ Hs) as Hw. split.
    + destruct (fallback_trace g o msg userID session Hu Ha Hs Hw)
        as (_ & _ & Hr); try (by rewrite He).
      unfold dispatch, update. cbn zeta in Hr. rewrite Hr. by rewrite He.
    + unfold trace, update.
      rewrite (legacy_processUpdate_allowed g msg userID session Hu Ha Hs).
      rewrite He, (legacy_fallback_message g session Hw).
      reflexivity.
Qed.


(** ** The theorems at sample inputs *)

Lemma sample_session userID :
  userID ∈ AllowedIds sampleConfig ->
  is_Some (Sessions (pool (initGlobals sampleConfig)) !! userID).
Proof.
  intros Hin. cbn [pool initGlobals Sessions].
  rewrite initSessions_lookup, decide_True; [by eexists | done].
Qed.

(** C1, at a script file that is readable and empty: "/showcode" from an
    allowed identity with a session is not answered with the contents of the
    file; no message is sent and a request to run the script is pushed to
    the queue. *)
Theorem showcode_empty_script_runs_it :
  let o := sampleOracle (inl []) ([], None) delivered in
  let update := sampleUpdate "telegram_id_1" 7 (Some "/showcode") in
  fileReads (trace o (processUpdate sampleGlobals update))
  = [("/home/pi/python/opencv/detect_face.py", inl [])]
  ∧ dispatch sampleGlobals o update = Enqueue (sampleRequest 7)
  ∧ sentMessages (trace o (processUpdate sampleGlobals update)) = [].
Proof. repeat split. Qed.

Lemma showcode_empty_script_enqueues_witness :
  let o := sampleOracle (inl []) ([], None) delivered in
  let update := sampleUpdate "telegram_id_1" 7 (Some "/showcode") in
  fileReads (trace o (processUpdate sampleGlobals update))
  = [(scriptPath sampleGlobals, inl [])]
  ∧ dispatch sampleGlobals o update = Enqueue (sampleRequest 7).
Proof.
  intros o update. split; [reflexivity|].
  apply (showcode_empty_script_enqueues sampleConfig o
           (sampleMessage "telegram_id_1" 7 (Some "/showcode"))
           "telegram_id_1");
    [reflexivity | reflexivity | apply sample_session; repeat constructor
    | reflexivity | reflexivity].
Defined.

Lemma execute_enqueues_witness :
  let o := sampleOracle (inl []) ([], None) delivered in
  let update := sampleUpdate "telegram_id_2" 8 (Some "/execute now") in
  HasPrefix "/execute now" commandExecute = true
  ∧ dispatch sampleGlobals o update = Enqueue (sampleRequest 8)
  ∧ sentMessages (trace o (processUpdate sampleGlobals update)) = [].
Proof.
  intros o update. split; [reflexivity|].
  destruct (execute_enqueues sampleConfig o
              (sampleMessage "telegram_id_2" 8 (Some "/execute now"))
              "telegram_id_2") as (H1 & _ & H3 & _);
    [reflexivity | reflexivity | apply sample_session; repeat constructor
    | reflexivity | ].
  split; [exact H1 | exact H3].
Defined.

Lemma unknown_command_reply_witness :
  let o := sampleOracle (inl []) ([], None) delivered in
  let update := sampleUpdate "telegram_id_1" 7 (Some "hello") in
  HasPrefix "hello" commandStart = false
  ∧ HasPrefix "hello" commandExecute = false
  ∧ HasPrefix "hello" commandShowCode = false
  ∧ dispatch sampleGlobals o update = ReplyWith "hello: Unknown command.".
Proof.
  intros o update. repeat (split; [reflexivity|]).
  destruct (unknown_command_reply sampleConfig o
              (sampleMessage "telegram_id_1" 7 (Some "hello"))
              "telegram_id_1") as (H1 & _ & _);
    [reflexivity | reflexivity | apply sample_session; repeat constructor
    | reflexivity | reflexivity | reflexivity | ].
  apply H1. discriminate.
Defined.

Lemma output_classification_witness :
  let run bytes :=
    trace (sampleOracle (inl []) (bytes, None) delivered)
      (processExecuteRequest sampleSniffer sampleGlobals (sampleRequest 7)) in
  (scriptRuns (run jpegBytes) = [(scriptPath sampleGlobals, (jpegBytes, None))]
   ∧ sentPhotos (run jpegBytes) = [(7, bot.InputFileFromBytes jpegBytes)]
   ∧ sentVideos (run jpegBytes) = [])
  ∧ (scriptRuns (run mp4Bytes) = [(scriptPath sampleGlobals, (mp4Bytes, None))]
     ∧ sentVideos (run mp4Bytes) = [(7, bot.InputFileFromBytes mp4Bytes)]
     ∧ sentPhotos (run mp4Bytes) = [])
  ∧ (scriptRuns (run textBytes)
     = [(scriptPath sampleGlobals, (textBytes, None))]
     ∧ sentMessages (run textBytes) = [(7, "ok", replyOptions)]
     ∧ sentPhotos (run textBytes) = []
     ∧ sentVideos (run textBytes) = [])
  ∧ sentMessages
      (trace (sampleOracle (inl []) (jpegBytes, None) refused)
         (processExecuteRequest sampleSniffer sampleGlobals (sampleRequest 7)))
    = [(7, "Failed to send photo: Bad Request: chat not found",
        afterSendPhoto 7 (bot.InputFileFromBytes jpegBytes) replyOptions)].
Proof.
  intros run.
  pose proof (output_classification sampleSniffer sampleGlobals
                (sampleOracle (inl []) (jpegBytes, None) refused)
                (sampleRequest 7) jpegBytes eq_refl) as Hrefused.
  cbv zeta in Hrefused.
  change (HasPrefix (sampleSniffer jpegBytes) "image") with true in Hrefused.
  cbv iota in Hrefused. destruct Hrefused as (_ & _ & Hreport).
  pose proof (output_classification sampleSniffer sampleGlobals
                (sampleOracle (inl []) (jpegBytes, None) delivered)
                (sampleRequest 7) jpegBytes eq_refl) as Hjpeg.
  pose proof (output_classification sampleSniffer sampleGlobals
                (sampleOracle (inl []) (mp4Bytes, None) delivered)
                (sampleRequest 7) mp4Bytes eq_refl) as Hmp4.
  pose proof (output_classification sampleSniffer sampleGlobals
                (sampleOracle (inl []) (textBytes, None) delivered)
                (sampleRequest 7) textBytes eq_refl) as Htext.
  cbv zeta in Hjpeg, Hmp4, Htext.
  change (HasPrefix (sampleSniffer jpegBytes) "image") with true in Hjpeg.
  change (HasPrefix (sampleSniffer mp4Bytes) "image") with false in Hmp4.
  change (HasPrefix (sampleSniffer mp4Bytes) "video") with true in Hmp4.
  change (HasPrefix (sampleSniffer textBytes) "image") with false in Htext.
  change (HasPrefix (sampleSniffer textBytes) "video") with false in Htext.
  cbv iota in Hjpeg, Hmp4, Htext.
  destruct Hjpeg as (Hj1 & Hj2 & _). destruct Hmp4 as (Hm1 & Hm2 & _).
  destruct Htext as (Ht1 & Ht2 & Ht3).
  repeat split;
    first [ assumption
          | apply (Hreport refused); vm_compute; tauto
          | reflexivity ].
Defined.

Lemma script_failure_reply_witness :
  let failure := {| Error := "exit status 1" |} in
  let o := sampleOracle (inl []) (textBytes, Some failure) refused in
  let tr := trace o (processExecuteRequest sampleSniffer sampleGlobals
                       (sampleRequest 7)) in
  scriptRuns tr = [(scriptPath sampleGlobals, (textBytes, Some failure))]
  ∧ sentMessages tr
    = [(7, "Error running script: exit status 1 (ok)", replyOptions)]
  ∧ sentPhotos tr = []
  ∧ sentVideos tr = []
  ∧ logged tr
    = ["*** Error running script: exit status 1 (ok)";
       "*** Failed to send error message: Bad Request: chat not found"].
Proof.
  intros failure o tr. split; [reflexivity|].
  destruct (script_failure_reply sampleSniffer sampleGlobals o
              (sampleRequest 7) textBytes failure eq_refl)
    as (H1 & H2 & H3 & H4).
  split; [exact H1|]. split; [exact H2|]. split; [exact H3|].
  apply (H4 refused). vm_compute. tauto.
Defined.

Lemma registry_is_allow_list_witness :
  init (inl sampleConfig) = Some sampleGlobals
  ∧ "telegram_id_1" ∈ allowedIds sampleGlobals
  ∧ (Sessions (pool sampleGlobals) !! "telegram_id_1"
     = Some {| UserID := "telegram_id_1"; CurrentStatus := StatusWaiting |})
  ∧ ("somebody" ∉ allowedIds sampleGlobals)
  ∧ (Sessions (pool sampleGlobals) !! "somebody" = None).
Proof.
  destruct (registry_is_allow_list sampleSniffer (inl sampleConfig)
              sampleGlobals eq_refl) as (H1 & H2 & _).
  assert (Hin : "telegram_id_1" ∈ allowedIds sampleGlobals) by constructor.
  assert (Hnot : "somebody" ∉ allowedIds sampleGlobals).
  { rewrite list_elem_of_In. cbn. intros [?|[?|[]]]; discriminate. }
  split; [reflexivity|]. split; [exact Hin|]. split; [exact (H1 _ Hin)|].
  split; [exact Hnot | exact (H2 _ Hnot)].
Defined.

Lemma legacy_differs_on_empty_text_only_witness :
  let o := sampleOracle (inl []) ([], None) delivered in
  let update := sampleUpdate "telegram_id_1" 7 (Some "/start") in
  let silent := sampleUpdate "telegram_id_1" 7 None in
  Legacy.processUpdate sampleGlobals update = processUpdate sampleGlobals update
  ∧ dispatch sampleGlobals o silent = ReplyWith "Unknown command."
  ∧ outcome (trace o (Legacy.processUpdate sampleGlobals silent))
    = ReplyWith ": Unknown command.".
Proof.
  intros o update silent. split.
  - destruct (legacy_differs_on_empty_text_only sampleConfig o
                (sampleMessage "telegram_id_1" 7 (Some "/start"))
                "telegram_id_1") as (H1 & _).
    apply H1. discriminate.
  - destruct (legacy_differs_on_empty_text_only sampleConfig o
                (sampleMessage "telegram_id_1" 7 None)
                "telegram_id_1") as (_ & H2).
    apply H2; [reflexivity | reflexivity | reflexivity
              | apply sample_session; repeat constructor].
Defined.


(** ** Runs along a schedule *)

Lemma steps_cons D σ0 l σ1 ls σ :
  step D σ0 l σ1 -> steps D σ1 ls σ -> steps D σ0 (l :: ls) σ.
Proof.
  intros Hstep Hsteps. induction Hsteps as [|ls σ2 l' σ' _ IH Hstep'].
  - apply (steps_snoc D σ0 [] σ0); [constructor | done].
  - by apply (steps_snoc D σ0 (l :: ls) σ2).
Qed.

Lemma fireCall_sound {R} answers (p : prog R) σ e p' σ' :
  fireCall answers p σ = Some (e, p', σ') -> callStep p σ e p' σ'.
Proof.
  destruct p as [r| |X c k]; cbn -[enabled]; [done | done |].
  destruct (enabled c σ) eqn:Hen; [|done].
  intros [= <- <- <-]. split; [done|]. by exists (answers X c).
Qed.

Lemma fire_sound D answers σ m l σ' :
  fire D answers σ m = Some (l, σ') -> step D σ l σ'.
Proof.
  destruct m as [update|i|i|i]; cbn -[fireCall].
  - destruct (bot.UpdateMessage update) eqn:Hmsg; [|done].
    intros [= <- <-]. apply step_update. by rewrite Hmsg.
  - destruct (goroutines σ !! i) as [[p| |p]|] eqn:Hi; try done.
    + destruct (fireCall answers p σ) as [[[e p'] σ1]|] eqn:Hcall; [|done].
      intros [= <- <-]. eapply step_handler; [done|].
      by apply (fireCall_sound answers).
    + destruct (fireCall answers p σ) as [[[e p'] σ1]|] eqn:Hcall; [|done].
      intros [= <- <-]. eapply step_worker; [done|].
      by apply (fireCall_sound answers).
  - destruct (goroutines σ !! i) as [[p| |p]|] eqn:Hi; try done.
    destruct (executeChannel σ) as [|request rest] eqn:Hch; [done|].
    intros [= <- <-]. by apply step_receive.
  - destruct (goroutines σ !! i) as [[p| |[r| |X c k]]|] eqn:Hi; try done.
    intros [= <- <-]. by apply (step_return _ _ _ r).
Qed.

Lemma fireAll_sound D answers σ ms :
  steps D σ (fireAll D answers σ ms).1 (fireAll D answers σ ms).2.
Proof.
  revert σ. induction ms as [|m ms IH]; intros σ; cbn -[fire].
  - constructor.
  - destruct (fire D answers σ m) as [[l σ']|] eqn:Hfire; cbn; [|constructor].
    apply (steps_cons D σ l σ'); [exact (fire_sound _ _ _ _ _ _ Hfire) | apply IH].
Qed.

Lemma atSend_Some σ i request :
  atSend σ i = Some request ->
  ∃ k, goroutines σ !! i = Some (Handler (Vis (ChanSend request) k)).
Proof.
  unfold atSend.
  destruct (goroutines σ !! i) as [[[r| |X c k]| |p]|]; try done.
  destruct c; try done. intros [= ->]. by exists k.
Qed.

Lemma sampleRun_inFlight : inFlight sampleRun.1 = [0%nat].
Proof. vm_compute. reflexivity. Qed.

Lemma sampleBurstRun_full :
  atSend sampleBurstRun.2 5 = Some (sampleRequest 5)
  ∧ length (executeChannel sampleBurstRun.2) = numQueue
  ∧ map ChatID (pushed sampleBurstRun.1) = [1; 2; 3; 4]
  ∧ map ChatID (executeChannel sampleBurstRun.2) = [1; 2; 3; 4].
Proof. vm_compute. repeat split. Qed.

Lemma execute_lock_exclusion_witness :
  steps sampleSniffer (start sampleGlobals) sampleRun.1 sampleRun.2
  ∧ inFlight sampleRun.1 = [0%nat]
  ∧ (length (inFlight sampleRun.1) ≤ 1)%nat.
Proof.
  assert (Hsteps : steps sampleSniffer (start sampleGlobals)
                     sampleRun.1 sampleRun.2)
    by apply fireAll_sound.
  split; [exact Hsteps|]. split; [exact sampleRun_inFlight|].
  destruct (execute_lock_exclusion sampleSniffer) as (_ & Hrun).
  destruct (Hrun 1%nat sampleGlobals sampleRun.1 sampleRun.2 Hsteps)
    as (Hmax & _).
  exact Hmax.
Defined.

Lemma execute_queue_bounded_fifo_witness :
  steps sampleSniffer (start sampleGlobals)
    sampleBurstRun.1 sampleBurstRun.2
  ∧ length (executeChannel sampleBurstRun.2) = 4%nat
  ∧ map ChatID (pushed sampleBurstRun.1) = [1; 2; 3; 4]
  ∧ pushed sampleBurstRun.1
    = popped sampleBurstRun.1 ++ executeChannel sampleBurstRun.2
  ∧ blocked sampleSniffer sampleBurstRun.2 5.
Proof.
  assert (Hsteps : steps sampleSniffer (start sampleGlobals)
                     sampleBurstRun.1 sampleBurstRun.2)
    by apply fireAll_sound.
  destruct sampleBurstRun_full as (Hsend & Hfull & Hpushed & _).
  destruct (atSend_Some _ _ _ Hsend) as [k Hk].
  destruct (execute_queue_bounded_fifo sampleSniffer 1%nat sampleGlobals
              sampleBurstRun.1 sampleBurstRun.2 Hsteps)
    as (_ & _ & Hfifo & Hwait).
  destruct (Hwait 5%nat (sampleRequest 5) k Hk Hfull) as (Hblocked & _).
  split; [exact Hsteps|]. split; [exact Hfull|]. split; [exact Hpushed|].
  split; [exact Hfifo | exact Hblocked].
Defined.


(** * More about the two functions *)

(** ** Every path of processUpdate *)

(* follow processUpdate along every branch and every answer *)
Ltac run_update :=
  unfold trace, result, processUpdate, chooseMessage, readCode,
    replyOrEnqueue;
  cbn -[Nat.ltb String.length];
  repeat match goal with
    | |- context [deref (bot.UpdateMessage ?u)] =>
        destruct (bot.UpdateMessage u) as [?msg|]; cbn -[Nat.ltb String.length]
    | |- context [bot.From ?m] =>
        destruct (bot.From m) as [?sender|] eqn:?Hfrom;
        cbn -[Nat.ltb String.length]
    | |- context [bot.Username ?u] =>
        destruct (bot.Username u) as [?userID|] eqn:?Huser;
        cbn -[Nat.ltb String.length]
    | |- context [isAvailableID ?g ?u] =>
        destruct (isAvailableID g u) eqn:?Hallowed;
        cbn -[Nat.ltb String.length]
    | |- context [Sessions ?p !! ?u] =>
        destruct (Sessions p !! u) as [?session|] eqn:?Hsession;
        cbn -[Nat.ltb String.length]
    | |- context [CurrentStatus ?s =? StatusWaiting] =>
        destruct (CurrentStatus s =? StatusWaiting) eqn:?Hstatus;
        cbn -[Nat.ltb String.length]
    | |- context [if HasPrefix ?s ?p then _ else _] =>
        destruct (HasPrefix s p) eqn:?Hprefix; cbn -[Nat.ltb String.length]
    | |- context [?o ?n _ (ReadFile ?p)] =>
        destruct (o n _ (ReadFile p)) as [?bytes|?err] eqn:?Hread;
        cbn -[Nat.ltb String.length]
    | |- context [(0 <? String.length ?s)%nat] =>
        destruct (0 <? String.length s)%nat eqn:?Hlength;
        cbn -[Nat.ltb String.length]
    | |- context [bot.Ok (?o ?n _ ?c)] =>
        destruct (o n _ c) as [[|] [?description|]] eqn:?Hsent;
        cbn -[Nat.ltb String.length]
    end.

Lemma allowed_has_session config userID :
  isAvailableID (initGlobals config) userID = true ->
  ∃ session,
    Sessions (pool (initGlobals config)) !! userID = Some session
    ∧ CurrentStatus session = StatusWaiting.
Proof.
  unfold isAvailableID. rewrite isAvailableID_in_elem_of. intros Hin.
  eexists. cbn [pool initGlobals Sessions].
  rewrite initSessions_lookup, decide_True by done. done.
Qed.

(** X1.  processUpdate returns true exactly when it sent one message and the
    send succeeded; when it pushes a request to the queue it returns
    false. *)
Theorem processUpdate_result (g : Globals) (o : oracle) (update : bot.Update) :
  let tr := trace o (processUpdate g update) in
  (result o (processUpdate g update) = Some true
   ↔ map bot.Ok (deliveries tr) = [true])
  ∧ (enqueued tr ≠ [] -> result o (processUpdate g update) = Some false).
Proof.
  run_update. all: split; [split; [done | intros [=]] | done].
  all: try done.
Qed.

(** X2.  One call of processUpdate sends at most one message or pushes at
    most one request, never both; whatever it sends goes to the chat of the
    update with the keyboard options; it never runs the script and never
    sends a photo or a video. *)
Theorem processUpdate_one_action (g : Globals) (o : oracle)
    (msg : bot.Message) :
  let tr := trace o (processUpdate g {| bot.UpdateMessage := Some msg |}) in
  (length (sentMessages tr) + length (enqueued tr) ≤ 1)%nat
  ∧ Forall (addressedTo (bot.ID (bot.MessageChat msg)) replyOptions) tr
  ∧ Forall (fun request => request
                           = {| ChatID := bot.ID (bot.MessageChat msg);
                                MessageOptions := replyOptions |})
           (enqueued tr)
  ∧ scriptRuns tr = []
  ∧ sentPhotos tr = []
  ∧ sentVideos tr = [].
Proof.
  run_update.
  all: split; [lia|]; split; [|split; [|done]].
  all: repeat constructor.
Qed.

(** X3.  An update from a sender without user name, or with a user name
    that is not in the allow-list, is dropped: processUpdate writes one log
    line and returns false; it takes no lock, reads no file, sends nothing
    and pushes nothing. *)
Theorem processUpdate_drops_others (g : Globals) (o : oracle)
    (msg : bot.Message) (sender : bot.User) :
  let update := {| bot.UpdateMessage := Some msg |} in
  bot.From msg = Some sender ->
  (∀ userID, bot.Username sender = Some userID ->
             isAvailableID g userID = false) ->
  exec o 0 (processUpdate g update)
  = ([EvLogPrintf
        match bot.Username sender with
        | Some userID => "*** Id not allowed: " +:+ userID
        | None => "*** Not allowed (no user name): "
                  +:+ bot.FirstName sender
        end],
     Some false)
  ∧ dispatch g o update = Drop.
Proof.
  intros update Hfrom Hother.
  unfold dispatch, update, trace, processUpdate. cbn. rewrite Hfrom. cbn.
  destruct (bot.Username sender) as [userID|]; [|done].
  by rewrite (Hother userID eq_refl).
Qed.

(** X4.  After init, a text that starts with "/start" from an allowed
    identity is answered with the prompt "Input your command:", whatever
    follows the command; nothing is pushed to the queue. *)
Theorem start_prompt (config : Config) (o : oracle) (msg : bot.Message)
    (userID : string) :
  let g := initGlobals config in
  let update := {| bot.UpdateMessage := Some msg |} in
  bot.From msg ≫= bot.Username = Some userID ->
  isAvailableID g userID = true ->
  HasPrefix (textOf msg) commandStart = true ->
  dispatch g o update = ReplyWith "Input your command:"
  ∧ sentMessages (trace o (processUpdate g update))
    = [(bot.ID (bot.MessageChat msg), "Input your command:", replyOptions)]
  ∧ enqueued (trace o (processUpdate g update)) = [].
Proof.
  intros g update Hu Ha Hx.
  destruct (allowed_has_session config userID Ha) as (session & Hs & Hw).
  unfold dispatch, update, trace.
  rewrite (processUpdate_allowed _ _ _ _ Hu Ha Hs).
  unfold chooseMessage. rewrite Hw, Hx. cbn [exec fst].
  destruct (reply_trace o 1 (bot.ID (bot.MessageChat msg)) replyOptions
              messageDefault) as (Hsent & Hq & Hr & _); [done|].
  cbn in Hsent, Hq, Hr |- *. by rewrite Hsent, Hq, Hr.
Qed.

(** X5.  processUpdate takes the lock of the session pool exactly when the
    message has a sender with a user name that isAvailableID accepts, and
    then once.  When it returns it has released the lock as often as it
    took it.  When it panics it has released nothing: either the message
    has no sender and no call was made, or the lock was taken once and is
    still held (the Unlock is not deferred). *)
Theorem processUpdate_pool_lock (g : Globals) (o : oracle)
    (msg : bot.Message) :
  let p := processUpdate g {| bot.UpdateMessage := Some msg |} in
  let locks := countEvents isPoolLockEvent (trace o p) in
  let unlocks := countEvents isPoolUnlockEvent (trace o p) in
  locks = (if allowedSender g msg then 1 else 0)%nat
  ∧ (result o p ≠ None -> unlocks = locks)
  ∧ (result o p = None ->
     unlocks = 0%nat
     ∧ (bot.From msg = None ∧ trace o p = []
        ∨ bot.From msg ≠ None ∧ locks = 1%nat)).
Proof.
  unfold allowedSender. run_update. all: repeat split; try done.
  all: first [by left | by right].
Qed.

Lemma processUpdate_outcomes (g : Globals) (o : oracle) (msg : bot.Message) :
  result o (processUpdate g {| bot.UpdateMessage := Some msg |}) = None
  ↔ bot.From msg = None
    ∨ Exists (fun r => bot.Ok r = false ∧ bot.Description r = None)
        (deliveries (trace o (processUpdate g
                                {| bot.UpdateMessage := Some msg |}))).
Proof.
  run_update.
  all: split;
    [ intros Hres; try done;
      first [ by left | right; by repeat constructor ]
    | intros [Hnone|Hex]; try done;
      repeat (apply Exists_cons in Hex as [[? ?]|Hex]; [done|]);
      by apply Exists_nil in Hex ].
Qed.

(** X6.  processUpdate panics in three cases only: the update has no
    message, the message has no sender (both pointers are dereferenced
    unchecked, before any call), or a send failed and the answer carries no
    description (the description is dereferenced for the log). *)
Theorem processUpdate_panics (g : Globals) (o : oracle) (update : bot.Update) :
  result o (processUpdate g update) = None
  ↔ bot.UpdateMessage update = None
    ∨ (∃ msg, bot.UpdateMessage update = Some msg ∧ bot.From msg = None)
    ∨ Exists (fun r => bot.Ok r = false ∧ bot.Description r = None)
        (deliveries (trace o (processUpdate g update))).
Proof.
  destruct update as [[msg|]]; [|split; [by left | done]].
  rewrite processUpdate_outcomes. cbn. split.
  - intros [Hfrom|Hex]; right; [left; by exists msg | by right].
  - intros [[=]|[(msg' & [= <-] & Hfrom)|Hex]]; [by left | by right].
Qed.

Lemma session_branch_dead (g : Globals) (o : oracle) (update : bot.Update) :
  (∀ userID, isAvailableID g userID = true ->
             Sessions (pool g) !! userID ≠ None) ->
  Forall (fun line => HasPrefix line "*** Session does not exist" = false)
    (logged (trace o (processUpdate g update))).
Proof.
  intros Hreg. run_update. all: repeat constructor.
  by destruct (Hreg _ Hallowed).
Qed.

(** X7.  After init the branch of processUpdate for an allowed sender
    without session is dead: no run logs "Session does not exist". *)
Theorem session_always_exists (config : Config) (o : oracle)
    (update : bot.Update) :
  Forall (fun line => HasPrefix line "*** Session does not exist" = false)
    (logged (trace o (processUpdate (initGlobals config) update))).
Proof.
  apply session_branch_dead. intros userID Ha.
  destruct (allowed_has_session config userID Ha) as (session & Hs & _).
  by rewrite Hs.
Qed.


(** ** Every path of processExecuteRequest *)

Section WorkerPaths.

Variable DetectContentType : list byte -> string.

(** X8.  processExecuteRequest returns true exactly when the last send it
    made succeeded, be it the result, or only the report of a failed script
    or of a failed photo or video.  It makes one send per request, and a
    second one only to report that a photo or video could not be sent. *)
Theorem processExecuteRequest_result (g : Globals) (o : oracle)
    (request : ExecuteRequest) :
  let p := processExecuteRequest DetectContentType g request in
  (result o p = Some true
   ↔ last (map bot.Ok (deliveries (trace o p))) = Some true)
  ∧ (1 ≤ length (deliveries (trace o p)) ≤ 2)%nat
  ∧ (length (deliveries (trace o p)) = 2%nat ->
     length (sentMessages (trace o p)) = 1%nat
     ∧ (length (sentPhotos (trace o p)) + length (sentVideos (trace o p))
        = 1)%nat
     ∧ map bot.Ok (deliveries (trace o p)) !! 0%nat = Some false).
Proof.
  unfold result. run_worker.
  all: split; [split; [done | intros [=]] | split; [cbn; lia|]]; try done.
Qed.

(** X9.  Every call of processExecuteRequest to the client goes to the chat
    of the request.  The first send that delivers something is given the
    options of the request; the report that follows a failed photo or video
    is given the same map as that send left it, with the chat and the photo
    or video stored in it.  processExecuteRequest pushes nothing to the
    queue, never touches the lock of the session pool and reads no file. *)
Theorem processExecuteRequest_addressed (g : Globals) (o : oracle)
    (request : ExecuteRequest) :
  let tr := trace o (processExecuteRequest DetectContentType g request) in
  let options := MessageOptions request in
  Forall (fun e => ∀ chat, chatOfEvent e = Some chat -> chat = ChatID request)
    tr
  ∧ sentOptions tr
    = options
      :: (if decide (length (deliveries tr) = 2%nat)
          then map (fun photo => afterSendPhoto photo.1 photo.2 options)
                 (sentPhotos tr)
               ++ map (fun video => afterSendVideo video.1 video.2 options)
                    (sentVideos tr)
          else [])
  ∧ enqueued tr = []
  ∧ fileReads tr = []
  ∧ countEvents isPoolLockEvent tr = 0%nat
  ∧ countEvents isPoolUnlockEvent tr = 0%nat.
Proof.
  run_worker. all: split; [|done].
  all: repeat constructor. all: by intros chat [= <-].
Qed.

(** X10.  processExecuteRequest signals "typing" to the chat before it runs
    the script, and runs the script before it delivers anything; a photo is
    announced by "upload photo" and a video by "upload video", and nothing
    else is announced. *)
Theorem processExecuteRequest_order (g : Globals) (o : oracle)
    (request : ExecuteRequest) :
  let tr := trace o (processExecuteRequest DetectContentType g request) in
  let chat := ChatID request in
  (∃ r output rest,
     tr = EvExecuteLockLock
          :: EvSendChatAction chat bot.ChatActionTyping r
          :: EvCombinedOutput (scriptPath g) output :: rest
     ∧ scriptRuns rest = []
     ∧ deliveries tr = deliveries rest)
  ∧ sentActions tr
    = (chat, bot.ChatActionTyping)
      :: map (fun _ => (chat, bot.ChatActionUploadPhoto)) (sentPhotos tr)
      ++ map (fun _ => (chat, bot.ChatActionUploadVideo)) (sentVideos tr).
Proof.
  run_worker. all: split; [by repeat eexists | done].
Qed.

(** X11.  processExecuteRequest panics only when a send failed and the
    answer carries no description. *)
Theorem processExecuteRequest_panics (g : Globals) (o : oracle)
    (request : ExecuteRequest) :
  let p := processExecuteRequest DetectContentType g request in
  result o p = None
  ↔ Exists (fun r => bot.Ok r = false ∧ bot.Description r = None)
      (deliveries (trace o p)).
Proof.
  unfold result. run_worker.
  all: split;
    [ intros Hres; try done; by repeat constructor
    | intros Hex;
      repeat (apply Exists_cons in Hex as [[? ?]|Hex]; [done|]);
      by apply Exists_nil in Hex ].
Qed.

End WorkerPaths.


(** ** From "/execute" to the photo *)

(** X12.  After init, the request that processUpdate pushes for "/execute"
    from an allowed identity, once handed to processExecuteRequest, brings
    the output of a successful script that sniffs as an image back as a
    photo to the chat the command came from, with the command keyboard. *)
Theorem execute_round_trip (DetectContentType : list byte -> string)
    (config : Config) (o : oracle) (msg : bot.Message) (userID : string) :
  let g := initGlobals config in
  let chat := bot.ID (bot.MessageChat msg) in
  bot.From msg ≫= bot.Username = Some userID ->
  isAvailableID g userID = true ->
  HasPrefix (textOf msg) commandExecute = true ->
  ∃ request,
    enqueued (trace o (processUpdate g {| bot.UpdateMessage := Some msg |}))
    = [request]
    ∧ ∀ (o' : oracle) bytes,
        let tr := trace o' (processExecuteRequest DetectContentType g
                              request) in
        scriptRuns tr = [(scriptPath g, (bytes, None))] ->
        HasPrefix (DetectContentType bytes) "image" = true ->
        sentPhotos tr = [(chat, bot.InputFileFromBytes bytes)]
        ∧ ∃ r, In (EvSendPhoto chat (bot.InputFileFromBytes bytes)
                     replyOptions r) tr.
Proof.
  intros g chat Hu Ha Hx.
  destruct (allowed_has_session config userID Ha) as (session & Hs & Hw).
  exists {| ChatID := chat; MessageOptions := replyOptions |}. split.
  - unfold trace. rewrite (processUpdate_allowed _ _ _ _ Hu Ha Hs).
    by rewrite (execute_message g session _ Hw Hx).
  - intros o' bytes. cbv zeta. generalize replyOptions. intros options.
    run_worker.
    all: intros [= ->] || (intros [=]; fail).
    all: intros Himage; try congruence.
    all: split; [reflexivity|]; eexists; cbn; tauto.
Qed.

(** ** Start-up *)

(** X13.  Initialization makes one call, the read of config.json beside the
    source.  It panics exactly when the file cannot be read or cannot be
    parsed.  Otherwise the globals are those of the parsed configuration:
    the monitor interval is positive and the allowed identities are
    exactly those of the list in the file. *)
Theorem initialize_outcome (Unmarshal : list byte -> Config + error)
    (Join : string -> string -> string) (sourceDir : string) (o : oracle) :
  let p := initialize Unmarshal Join sourceDir in
  ∃ r,
    trace o p = [EvReadFile (Join sourceDir configFilename) r]
    ∧ match result o p with
      | Some g =>
          ∃ file conf,
            r = inl file ∧ Unmarshal file = inl conf ∧ g = initGlobals conf
            ∧ 0 < monitorInterval g
            ∧ (MonitorInterval conf ≤ 0 -> monitorInterval g = 5)
            ∧ ∀ userID,
                isAvailableID g userID = true ↔ userID ∈ AllowedIds conf
      | None =>
          match r with
          | inl file => ∃ err, Unmarshal file = inr err
          | inr _ => True
          end
      end.
Proof.
  intros p. unfold p, initialize, getConfig, trace, result. cbn.
  destruct (o 0%nat _ (ReadFile (Join sourceDir configFilename)))
    as [file|err]; cbn; [|by eexists].
  destruct (Unmarshal file) as [conf|err] eqn:Hparse; cbn;
    (eexists; split; [reflexivity|]); [|by eexists].
  exists file, conf. repeat split; try done.
  - cbn. unfold defaultMonitorIntervalSeconds.
    destruct (MonitorInterval conf <=? 0) eqn:H; lia.
  - cbn. intros Hle. destruct (MonitorInterval conf <=? 0) eqn:H; [done|lia].
  - unfold isAvailableID. by rewrite isAvailableID_in_elem_of.
  - unfold isAvailableID. by rewrite isAvailableID_in_elem_of.
Qed.

(** ** The callback of the monitor *)

Lemma exec_then_ret {R} (o : oracle) (n : nat) (p : prog R) :
  exec o n (p;; mret tt) = ((exec o n p).1, (fun _ => tt) <$> (exec o n p).2).
Proof.
  revert n. induction p as [r| |X c k IH]; intros n; [done | done |].
  cbn. specialize (IH (o n X c) (S n)).
  change (exec o (S n) (bind (k (o n X c)) (fun _ => mret tt))
          = ((exec o (S n) (k (o n X c))).1,
             (fun _ => tt) <$> (exec o (S n) (k (o n X c))).2)) in IH.
  by rewrite IH.
Qed.

(** X14.  The callback that main gives to the monitor makes the calls of
    processUpdate when the update came without error.  Its check guards the
    message of the update only: it does not panic on an update without
    message, but it panics on a message without sender, and where a failed
    send has no description.  When the update came with an error it writes
    one log line and does nothing else. *)
Theorem monitorCallback_guards (g : Globals) (o : oracle)
    (update : bot.Update) (err : option error) :
  let p := monitorCallback g update err in
  match err with
  | None =>
      trace o p = trace o (processUpdate g update)
      ∧ (result o p = None
         ↔ (∃ msg, bot.UpdateMessage update = Some msg ∧ bot.From msg = None)
           ∨ Exists (fun r => bot.Ok r = false ∧ bot.Description r = None)
               (deliveries (trace o p)))
  | Some e =>
      exec o 0 p
      = ([EvLogPrintf ("*** Error while receiving update ("
                       +:+ Error e +:+ ")")], Some tt)
  end.
Proof.
  intros p. unfold p, monitorCallback.
  destruct err as [e|]; [cbn; by destruct (o _ _ _)|].
  destruct update as [[msg|]]; cbn [bot.UpdateMessage].
  - unfold trace, result. rewrite exec_then_ret. cbn [fst snd].
    split; [done|].
    pose proof (processUpdate_outcomes g o msg) as Hp.
    unfold trace, result in Hp.
    destruct (exec o 0 (processUpdate g {| bot.UpdateMessage := Some msg |}))
      as [tr [r|]]; cbn in *.
    + split; [done|]. intros [(msg' & [= <-] & Hfrom)|Hex].
      * by pose proof (proj2 Hp (or_introl Hfrom)).
      * by pose proof (proj2 Hp (or_intror Hex)).
    + split; [|done]. intros _.
      destruct (proj1 Hp eq_refl) as [Hfrom|Hex]; [left; by exists msg | by right].
  - unfold trace, result, processUpdate. cbn.
    split; [done|]. split; [done|].
    intros [(msg' & [=] & _)|Hex]. by apply Exists_nil in Hex.
Qed.


(** * The process: the lock of the pool, the two locks, the keyboard *)

(** ** Programs call by call *)

Lemma everyCall_bind {A B} P (p : prog A) (f : A -> prog B) :
  everyCall P p -> (∀ a, everyCall P (f a)) -> everyCall P (p ≫= f).
Proof.
  intros Hp Hf. induction p as [a| |X c k IH]; cbn; [apply Hf | done |].
  destruct Hp as (Hc & Hk). split; [done|]. intros x. apply IH, Hk.
Qed.

Lemma everyCall_deref {A} P (p : option A) : everyCall P (deref p).
Proof. by destruct p. Qed.

Lemma everyCall_defer {R} P (d : prog unit) (body : prog R) :
  everyCall P d -> everyCall P body -> everyCall P (defer d body).
Proof.
  intros Hd. induction body as [r| |X c k IH]; cbn.
  - intros _. by apply (everyCall_bind P d).
  - intros _. by apply (everyCall_bind P d).
  - intros (Hc & Hk). split; [done|]. intros x. apply IH, Hk.
Qed.

Lemma everyCall_trigger {X} (P : ∀ X : Type, call X -> Prop) (c : call X) :
  P _ c -> everyCall P (trigger c).
Proof. by split. Qed.

Ltac every_call :=
  repeat first
    [ exact I
    | apply everyCall_deref
    | apply everyCall_trigger; by cbn
    | apply everyCall_bind; [|intro]
    | match goal with
      | |- everyCall _ (mret _) => exact I
      | |- everyCall _ (match ?x with _ => _ end) => destruct x
      | |- everyCall _ (let _ := _ in _) => cbv zeta
      end ].

Lemma finished_logsOnly {R} (p : prog R) : finished p -> logsOnly p.
Proof. by destruct p. Qed.

Lemma poolHolding_unlock {A} (body : prog A) :
  poolFree body ->
  poolHolding (body ≫= (fun r => trigger PoolUnlock;; mret r)).
Proof.
  induction body as [r| |X c k IH]; cbn; [done | done |].
  intros ((Hl & Hu) & Hk). rewrite Hu. split; [done|].
  intros x. apply IH, Hk.
Qed.

Lemma processUpdate_poolShape g update :
  poolAcquiring (processUpdate g update) ∨ logsOnly (processUpdate g update).
Proof.
  unfold processUpdate.
  destruct (bot.UpdateMessage update) as [msg|]; cbn; [|by right].
  destruct (bot.From msg) as [sender|]; cbn; [|by right].
  destruct (bot.Username sender) as [userID|]; [|by right].
  destruct (isAvailableID g userID); cbn; [|by right].
  left. split; [done|]. intros _.
  match goal with
  | |- poolHolding (?body ≫= _) =>
      assert (poolFree body) as Hbody; [|exact (poolHolding_unlock body Hbody)]
  end.
  unfold poolFree, chooseMessage, readCode, replyOrEnqueue. every_call.
Qed.

Lemma processExecuteRequest_poolFree D g request :
  poolFree (processExecuteRequest D g request).
Proof.
  unfold poolFree, processExecuteRequest, executeAndRespond, sendMessageOrLog.
  apply everyCall_bind; [by apply everyCall_trigger|]. intros _.
  apply everyCall_defer; [by apply everyCall_trigger|]. every_call.
Qed.

Lemma hasKeyboard_replyOptions : hasKeyboard replyOptions.
Proof. apply lookup_singleton_eq. Qed.

Lemma hasKeyboard_afterSendPhoto chat file options :
  hasKeyboard options -> hasKeyboard (afterSendPhoto chat file options).
Proof.
  intros Hk. unfold hasKeyboard, afterSendPhoto.
  by rewrite !lookup_insert_ne.
Qed.

Lemma hasKeyboard_afterSendVideo chat file options :
  hasKeyboard options -> hasKeyboard (afterSendVideo chat file options).
Proof.
  intros Hk. unfold hasKeyboard, afterSendVideo.
  by rewrite !lookup_insert_ne.
Qed.

Ltac keyboard_calls :=
  repeat first
    [ exact I
    | apply everyCall_deref
    | apply everyCall_trigger; cbn;
      first [ done
            | apply hasKeyboard_replyOptions
            | apply hasKeyboard_afterSendPhoto, hasKeyboard_replyOptions
            | apply hasKeyboard_afterSendVideo, hasKeyboard_replyOptions ]
    | apply everyCall_bind; [|intro]
    | match goal with
      | |- everyCall _ (mret _) => exact I
      | |- everyCall _ (match ?x with _ => _ end) => destruct x
      | |- everyCall _ (let _ := _ in _) => cbv zeta
      end ].

Lemma processUpdate_keyboard g update :
  everyCall keyboardCall (processUpdate g update).
Proof.
  unfold processUpdate, chooseMessage, readCode, replyOrEnqueue.
  keyboard_calls.
Qed.

Lemma processExecuteRequest_keyboard D g request :
  MessageOptions request = replyOptions ->
  everyCall keyboardCall (processExecuteRequest D g request).
Proof.
  intros Hoptions.
  unfold processExecuteRequest, executeAndRespond, sendMessageOrLog.
  rewrite Hoptions.
  apply everyCall_bind; [by apply everyCall_trigger|]. intros _.
  apply everyCall_defer; [by apply everyCall_trigger|]. keyboard_calls.
Qed.

(** ** The lock of the pool in a run *)

Lemma poolFlight_snoc ls l :
  poolFlight (ls ++ [l]) = poolFlightAfter (poolFlight ls) l.
Proof. unfold poolFlight. by rewrite foldl_app. Qed.

Lemma pool_lock_call {X} (c : call X) (x : X) σ :
  isPoolLock c = true ->
  enabled c σ = negb (poolLocked σ) ∧ poolLocked (effect c σ) = true
  ∧ event_of c x = EvPoolLock.
Proof. by destruct c. Qed.

Lemma pool_unlock_call {X} (c : call X) (x : X) σ :
  isPoolUnlock c = true ->
  enabled c σ = poolLocked σ ∧ poolLocked (effect c σ) = false
  ∧ event_of c x = EvPoolUnlock.
Proof. by destruct c. Qed.

Lemma other_call_pool {X} (c : call X) (x : X) holders i σ :
  isPoolLock c = false -> isPoolUnlock c = false ->
  poolFlightAfter holders (LCall i (event_of c x)) = holders
  ∧ poolLocked (effect c σ) = poolLocked σ.
Proof. by destruct c. Qed.

Lemma log_call {X} (c : call X) :
  isLog c = true -> isPoolLock c = false ∧ isPoolUnlock c = false.
Proof. by destruct c. Qed.

Lemma poolShape_other holders holders' j gr :
  (j ∈ holders' ↔ j ∈ holders) ->
  poolShape holders j gr -> poolShape holders' j gr.
Proof.
  intros Hiff. destruct gr as [p| |p]; cbn.
  - destruct (decide (j ∈ holders)), (decide (j ∈ holders')); tauto.
  - by rewrite Hiff.
  - by rewrite Hiff.
Qed.

Lemma poolInvariant_start workers g : poolInvariant [] (startWith workers g).
Proof.
  split; [done|]. split; [by intros i ?%elem_of_nil|].
  intros i gr [-> _]%lookup_replicate. cbn. apply not_elem_of_nil.
Qed.

Lemma poolInvariant_step D ls σ l σ' :
  poolInvariant ls σ -> step D σ l σ' -> poolInvariant (ls ++ [l]) σ'.
Proof.
  intros (Hlock & Hbound & Hshape) Hstep.
  unfold poolInvariant. rewrite poolFlight_snoc.
  destruct Hstep as [σ update Hmsg | σ i p e p' σ' Hi Hcall
                    | σ i p e p' σ' Hi Hcall | σ i request rest Hi Hch
                    | σ i r Hi].
  - (* a new call of processUpdate *)
    cbn. split; [done|]. split.
    + intros i Hin. rewrite length_app. cbn. specialize (Hbound i Hin). lia.
    + intros i gr Hgr. apply lookup_app_Some in Hgr as [Hgr|[Hlen Hgr]].
      * by apply Hshape.
      * apply list_lookup_singleton_Some in Hgr as [Hz <-]. cbn.
        rewrite decide_False; [apply processUpdate_poolShape|].
        intros Hin%Hbound. lia.
  - (* a call of processUpdate moves *)
    destruct p as [r| |X c k]; [done | done |].
    destruct Hcall as (Hen & x & -> & -> & ->).
    pose proof (Hshape _ _ Hi) as Hp. cbn in Hp.
    cbn [poolLocked goroutines setGoroutines].
    rewrite effect_goroutines.
    destruct (decide (i ∈ poolFlight ls)) as [Hin|Hnot].
    + destruct Hp as (Hl & Hp). destruct (isPoolUnlock c) eqn:Hu.
      * (* Unlock *)
        destruct (pool_unlock_call c x σ Hu) as (Hen' & -> & ->).
        rewrite Hen' in Hen. rewrite Hen in Hlock. destruct Hlock as [j Hj].
        rewrite Hj in Hin. apply list_elem_of_singleton in Hin as ->.
        cbn [poolFlightAfter]. rewrite Hj, filter_other_singleton.
        split; [done|]. split; [by intros ? ?%elem_of_nil|].
        intros i gr Hgr. apply list_lookup_insert_Some in Hgr
          as [(<- & <- & _)|(Hne & Hgr)].
        -- cbn. rewrite decide_False by apply not_elem_of_nil. right.
           apply finished_logsOnly, Hp.
        -- apply (poolShape_other (poolFlight ls)); [|by apply Hshape].
           rewrite Hj, list_elem_of_singleton.
           split; [by intros ?%elem_of_nil | done].
      * (* a call under the lock *)
        destruct (other_call_pool c x (poolFlight ls) i σ Hl Hu) as (-> & ->).
        split; [done|]. split.
        -- intros j Hj. rewrite length_insert. by apply Hbound.
        -- intros j gr Hgr. apply list_lookup_insert_Some in Hgr
             as [(<- & <- & _)|(Hne & Hgr)]; [|by apply Hshape].
           cbn. rewrite decide_True by done. apply Hp.
    + destruct Hp as [(Hl & Hk)|(Hlog & Hk)].
      * (* Lock *)
        destruct (pool_lock_call c x σ Hl) as (Hen' & -> & ->).
        rewrite Hen' in Hen. apply negb_true_iff in Hen.
        rewrite Hen in Hlock. cbn [poolFlightAfter].
        rewrite Hlock. cbn [app].
        split; [by exists i|]. split.
        -- intros j ->%list_elem_of_singleton. rewrite length_insert.
           by apply lookup_lt_Some in Hi.
        -- intros j gr Hgr. apply list_lookup_insert_Some in Hgr
             as [(<- & <- & _)|(Hne & Hgr)].
           ++ cbn. rewrite decide_True by apply list_elem_of_singleton, eq_refl.
              apply Hk.
           ++ apply (poolShape_other (poolFlight ls)); [|by apply Hshape].
              rewrite Hlock, list_elem_of_singleton.
              split; [done | by intros ?%elem_of_nil].
      * (* a line of the log *)
        destruct (log_call c Hlog) as (Hl & Hu).
        destruct (other_call_pool c x (poolFlight ls) i σ Hl Hu) as (-> & ->).
        split; [done|]. split.
        -- intros j Hj. rewrite length_insert. by apply Hbound.
        -- intros j gr Hgr. apply list_lookup_insert_Some in Hgr
             as [(<- & <- & _)|(Hne & Hgr)]; [|by apply Hshape].
           cbn. rewrite decide_False by done. right. apply Hk.
  - (* the worker moves inside processExecuteRequest *)
    destruct p as [r| |X c k]; [done | done |].
    destruct Hcall as (Hen & x & -> & -> & ->).
    destruct (Hshape _ _ Hi) as (((Hl & Hu) & Hk) & Hnot).
    cbn [poolLocked goroutines setGoroutines].
    rewrite effect_goroutines.
    destruct (other_call_pool c x (poolFlight ls) i σ Hl Hu) as (-> & ->).
    split; [done|]. split.
    + intros j Hj. rewrite length_insert. by apply Hbound.
    + intros j gr Hgr. apply list_lookup_insert_Some in Hgr
        as [(<- & <- & _)|(Hne & Hgr)]; [|by apply Hshape].
      split; [apply Hk | done].
  - (* the worker receives a request *)
    cbn. split; [done|]. split.
    + intros j Hj. rewrite length_insert. by apply Hbound.
    + intros j gr Hgr. apply list_lookup_insert_Some in Hgr
        as [(<- & <- & _)|(Hne & Hgr)]; [|by apply Hshape].
      pose proof (Hshape _ _ Hi) as Hp. cbn in Hp.
      split; [apply processExecuteRequest_poolFree | done].
  - (* the worker is back at the loop *)
    cbn. split; [done|]. split.
    + intros j Hj. rewrite length_insert. by apply Hbound.
    + intros j gr Hgr. apply list_lookup_insert_Some in Hgr
        as [(<- & <- & _)|(Hne & Hgr)]; [|by apply Hshape].
      by destruct (Hshape _ _ Hi) as (_ & Hnot).
Qed.

Lemma poolInvariant_steps D workers g ls σ :
  steps D (startWith workers g) ls σ -> poolInvariant ls σ.
Proof.
  induction 1 as [|ls σ l σ' _ IH Hstep].
  - apply poolInvariant_start.
  - by apply (poolInvariant_step D ls σ).
Qed.

Lemma poolFlight_handler ls σ i :
  poolInvariant ls σ -> i ∈ poolFlight ls ->
  ∃ p, goroutines σ !! i = Some (Handler p) ∧ poolHolding p.
Proof.
  intros (_ & Hbound & Hshape) Hin.
  destruct (lookup_lt_is_Some_2 _ _ (Hbound i Hin)) as [gr Hgr].
  pose proof (Hshape _ _ Hgr) as Hp. destruct gr as [p| |p]; cbn in Hp.
  - exists p. by rewrite decide_True in Hp.
  - done.
  - by destruct Hp.
Qed.

Lemma inFlight_worker ls σ i :
  lockInvariant ls σ -> i ∈ inFlight ls ->
  ∃ p, goroutines σ !! i = Some (Worker p) ∧ holding p.
Proof.
  intros (_ & Hbound & Hshape) Hin.
  destruct (lookup_lt_is_Some_2 _ _ (Hbound i Hin)) as [gr Hgr].
  pose proof (Hshape _ _ Hgr) as Hp. destruct gr as [p| |p]; cbn in Hp.
  - by destruct Hp.
  - done.
  - exists p. by rewrite decide_True in Hp.
Qed.

Section ProcessTheorems.

Variable DetectContentType : list byte -> string.

(** X15.  In every run at most one call of processUpdate is between
    pool.Lock and pool.Unlock, and the lock of the pool is taken by calls of
    processUpdate only.  Outside the lock a call of processUpdate only
    writes to the log or takes the lock: it reads the script file, sends
    and pushes to the queue only while it holds the lock. *)
Theorem pool_lock_exclusion (workers : nat) (g : Globals) (ls : list label)
    (σ : State) :
  steps DetectContentType (startWith workers g) ls σ ->
  (length (poolFlight ls) ≤ 1)%nat
  ∧ (poolLocked σ = true ↔ poolFlight ls ≠ [])
  ∧ (∀ i, i ∈ poolFlight ls -> ∃ p, goroutines σ !! i = Some (Handler p))
  ∧ (∀ i p e σ',
       goroutines σ !! i = Some (Handler p) ->
       step DetectContentType σ (LCall i e) σ' ->
       if decide (i ∈ poolFlight ls) then e ≠ EvPoolLock
       else e = EvPoolLock ∨ ∃ line, e = EvLogPrintf line).
Proof.
  intros Hsteps.
  pose proof (poolInvariant_steps _ _ _ _ _ Hsteps) as Hinv.
  pose proof Hinv as (Hlock & _ & Hshape).
  split; [|split; [|split]].
  - destruct (poolLocked σ); [destruct Hlock as [i ->] | rewrite Hlock];
      cbn; lia.
  - destruct (poolLocked σ); [destruct Hlock as [i ->] | rewrite Hlock];
      split; done.
  - intros i Hin. destruct (poolFlight_handler _ _ _ Hinv Hin) as (p & Hp & _).
    by exists p.
  - intros i p e σ' Hi Hstep.
    pose proof (Hshape _ _ Hi) as Hp. cbn in Hp.
    inversion Hstep as [ | ? ? q ? q' ? Hq Hcall | ? ? q ? q' ? Hq Hcall | | ];
      subst; simplify_eq.
    destruct p as [r| |X c k]; try done.
    destruct Hcall as (_ & x & -> & _).
    destruct (decide (i ∈ poolFlight ls)) as [Hin|Hnot].
    + destruct Hp as (Hl & _). by destruct c.
    + destruct Hp as [(Hl & _)|(Hlog & _)].
      * left. by destruct c.
      * right. destruct c; try done. by eexists.
Qed.

(** X16.  A call of processUpdate that is at its push to the queue holds the
    lock of the pool: while it waits there, every other call of
    processUpdate that is at pool.Lock is blocked, so updates of allowed
    senders are not served until the push is done. *)
Theorem push_holds_pool_lock (workers : nat) (g : Globals) (ls : list label)
    (σ : State) (i : nat) (request : ExecuteRequest) (k : unit -> prog bool) :
  steps DetectContentType (startWith workers g) ls σ ->
  goroutines σ !! i = Some (Handler (Vis (ChanSend request) k)) ->
  poolFlight ls = [i]
  ∧ poolLocked σ = true
  ∧ ∀ j k', goroutines σ !! j = Some (Handler (Vis PoolLock k')) ->
            blocked DetectContentType σ j.
Proof.
  intros Hsteps Hi.
  pose proof (poolInvariant_steps _ _ _ _ _ Hsteps) as (Hlock & _ & Hshape).
  pose proof (Hshape _ _ Hi) as Hp. cbn in Hp.
  destruct (decide (i ∈ poolFlight ls)) as [Hin|Hnot];
    [|by destruct Hp as [(? & _)|(? & _)]].
  destruct (poolLocked σ) eqn:Hlocked;
    [|rewrite Hlock in Hin; by apply elem_of_nil in Hin].
  destruct Hlock as [j Hj]. rewrite Hj in Hin.
  apply list_elem_of_singleton in Hin as ->.
  split; [done|]. split; [done|].
  intros j' k' Hj' l σ' Hstep Hactor.
  inversion Hstep as [ | ? ? q ? q' ? Hq Hcall | ? ? q ? q' ? Hq Hcall
                     | ? ? ? ? Hq | ? ? ? Hq ];
    subst; cbn in Hactor; simplify_eq.
  destruct Hcall as (Hen & _). cbn in Hen. by rewrite Hlocked in Hen.
Qed.

(** X17.  The two locks are never held together: the holders of the lock of
    the pool are calls of processUpdate, the holders of executeLock are
    calls of processExecuteRequest, and no goroutine is between the Lock and
    the Unlock of both. *)
Theorem locks_never_nested (workers : nat) (g : Globals) (ls : list label)
    (σ : State) :
  steps DetectContentType (startWith workers g) ls σ ->
  (∀ i, i ∈ poolFlight ls -> ∃ p, goroutines σ !! i = Some (Handler p))
  ∧ (∀ i, i ∈ inFlight ls -> ∃ p, goroutines σ !! i = Some (Worker p))
  ∧ (∀ i, i ∈ poolFlight ls -> i ∉ inFlight ls)
  ∧ (∀ i p e σ',
       goroutines σ !! i = Some (Worker p) ->
       step DetectContentType σ (LCall i e) σ' ->
       e ≠ EvPoolLock ∧ e ≠ EvPoolUnlock)
  ∧ (∀ i p e σ',
       goroutines σ !! i = Some (Handler p) ->
       step DetectContentType σ (LCall i e) σ' ->
       e ≠ EvExecuteLockLock ∧ e ≠ EvExecuteLockUnlock).
Proof.
  intros Hsteps.
  pose proof (poolInvariant_steps _ _ _ _ _ Hsteps) as Hpool.
  pose proof (lockInvariant_steps _ _ _ _ _ Hsteps) as Hexec.
  split; [|split; [|split; [|split]]].
  - intros i Hin. destruct (poolFlight_handler _ _ _ Hpool Hin) as (p & Hp & _).
    by exists p.
  - intros i Hin. destruct (inFlight_worker _ _ _ Hexec Hin) as (p & Hp & _).
    by exists p.
  - intros i Hin Hin'.
    destruct (poolFlight_handler _ _ _ Hpool Hin) as (p & Hp & _).
    destruct (inFlight_worker _ _ _ Hexec Hin') as (p' & Hp' & _).
    congruence.
  - intros i p e σ' Hi Hstep.
    destruct Hpool as (_ & _ & Hshape).
    destruct (Hshape _ _ Hi) as (Hp & _).
    inversion Hstep as [ | ? ? q ? q' ? Hq Hcall | ? ? q ? q' ? Hq Hcall | | ];
      subst; simplify_eq.
    destruct p as [r| |X c k]; try done.
    destruct Hcall as (_ & x & -> & _). destruct Hp as ((Hl & Hu) & _).
    by destruct c.
  - intros i p e σ' Hi Hstep.
    destruct Hexec as (_ & _ & Hshape).
    destruct (Hshape _ _ Hi) as (Hp & _).
    inversion Hstep as [ | ? ? q ? q' ? Hq Hcall | ? ? q ? q' ? Hq Hcall | | ];
      subst; simplify_eq.
    destruct p as [r| |X c k]; try done.
    destruct Hcall as (_ & x & -> & _). destruct Hp as (Hl & Hu & _).
    by destruct c.
Qed.

End ProcessTheorems.


(** ** One worker *)

Lemma oneWorker_start g : oneWorker (start g).
Proof.
  split; [done|]. intros i gr Hgr.
  apply list_lookup_singleton_Some in Hgr as [-> <-]. done.
Qed.

Lemma oneWorker_insert σ i gr gr' :
  oneWorker σ -> goroutines σ !! i = Some gr -> isHandler gr' = isHandler gr ->
  oneWorker (setGoroutines σ (<[ i := gr' ]> (goroutines σ))).
Proof.
  intros (Hlen & Hkind) Hi Heq. split; cbn.
  - by rewrite length_insert.
  - intros j gr'' Hj. apply list_lookup_insert_Some in Hj
      as [(<- & <- & _)|(Hne & Hj)]; [|by apply Hkind].
    rewrite Heq. by apply Hkind.
Qed.

Lemma oneWorker_step D σ l σ' : oneWorker σ -> step D σ l σ' -> oneWorker σ'.
Proof.
  intros Hone Hstep.
  destruct Hstep as [σ update Hmsg | σ i p e p' σ' Hi Hcall
                    | σ i p e p' σ' Hi Hcall | σ i request rest Hi Hch
                    | σ i r Hi].
  - destruct Hone as (Hlen & Hkind). split; cbn.
    + rewrite length_app. lia.
    + intros i gr Hgr. apply lookup_app_Some in Hgr as [Hgr|[Hge Hgr]];
        [by apply Hkind|].
      apply list_lookup_singleton_Some in Hgr as [Hz <-]. cbn.
      symmetry. apply negb_true_iff, Nat.eqb_neq. lia.
  - destruct p as [r| |X c k]; [done | done |].
    destruct Hcall as (_ & x & -> & -> & ->). rewrite effect_goroutines.
    destruct Hone as (Hlen & Hkind). split; cbn.
    + by rewrite length_insert.
    + intros j gr Hj. apply list_lookup_insert_Some in Hj
        as [(<- & <- & _)|(Hne & Hj)]; [|by apply Hkind].
      by apply (Hkind _ _ Hi).
  - destruct p as [r| |X c k]; [done | done |].
    destruct Hcall as (_ & x & -> & -> & ->). rewrite effect_goroutines.
    destruct Hone as (Hlen & Hkind). split; cbn.
    + by rewrite length_insert.
    + intros j gr Hj. apply list_lookup_insert_Some in Hj
        as [(<- & <- & _)|(Hne & Hj)]; [|by apply Hkind].
      by apply (Hkind _ _ Hi).
  - destruct Hone as (Hlen & Hkind). split; cbn.
    + by rewrite length_insert.
    + intros j gr Hj. apply list_lookup_insert_Some in Hj
        as [(<- & <- & _)|(Hne & Hj)]; [|by apply Hkind].
      by apply (Hkind _ _ Hi).
  - by apply (oneWorker_insert σ i (Worker (Ret r))).
Qed.

Lemma oneWorker_steps D g ls σ : steps D (start g) ls σ -> oneWorker σ.
Proof.
  induction 1 as [|ls σ l σ' _ IH Hstep].
  - apply oneWorker_start.
  - by apply (oneWorker_step D σ l).
Qed.

(** ** The keyboard in a run *)

Lemma keyboardEvent_call {X} (c : call X) (x : X) :
  keyboardCall X c -> keyboardEvent (event_of c x).
Proof. by destruct c. Qed.

Lemma keyboardCall_channel {X} (c : call X) σ :
  keyboardCall X c ->
  Forall (fun request => MessageOptions request = replyOptions)
    (executeChannel σ) ->
  Forall (fun request => MessageOptions request = replyOptions)
    (executeChannel (effect c σ)).
Proof.
  destruct c; try done. cbn. intros Hc Hq.
  apply Forall_app. split; [done|]. by constructor.
Qed.

Lemma keyboardInvariant_start workers g : keyboardInvariant (startWith workers g).
Proof.
  split; [constructor|]. by intros i gr [-> _]%lookup_replicate.
Qed.

Lemma keyboardInvariant_step D σ l σ' :
  keyboardInvariant σ -> step D σ l σ' ->
  keyboardLabel l ∧ keyboardInvariant σ'.
Proof.
  intros (Hq & Hshape) Hstep.
  destruct Hstep as [σ update Hmsg | σ i p e p' σ' Hi Hcall
                    | σ i p e p' σ' Hi Hcall | σ i request rest Hi Hch
                    | σ i r Hi].
  - split; [done|]. split; [done|]. cbn.
    intros i gr Hgr. apply lookup_app_Some in Hgr as [Hgr|[Hge Hgr]];
      [by eapply Hshape|].
    apply list_lookup_singleton_Some in Hgr as [Hz <-].
    apply processUpdate_keyboard.
  - destruct p as [r| |X c k]; [done | done |].
    destruct Hcall as (_ & x & -> & -> & ->).
    destruct (Hshape _ _ Hi) as (Hc & Hk).
    split; [by apply keyboardEvent_call|].
    split; [by apply keyboardCall_channel|]. cbn. rewrite effect_goroutines.
    intros j gr Hj. apply list_lookup_insert_Some in Hj
      as [(<- & <- & _)|(Hne & Hj)]; [apply Hk | by eapply Hshape].
  - destruct p as [r| |X c k]; [done | done |].
    destruct Hcall as (_ & x & -> & -> & ->).
    destruct (Hshape _ _ Hi) as (Hc & Hk).
    split; [by apply keyboardEvent_call|].
    split; [by apply keyboardCall_channel|]. cbn. rewrite effect_goroutines.
    intros j gr Hj. apply list_lookup_insert_Some in Hj
      as [(<- & <- & _)|(Hne & Hj)]; [apply Hk | by eapply Hshape].
  - rewrite Hch in Hq. apply Forall_cons in Hq as (Hrequest & Hrest).
    split; [done|]. split; [done|]. cbn.
    intros j gr Hj. apply list_lookup_insert_Some in Hj
      as [(<- & <- & _)|(Hne & Hj)]; [|by eapply Hshape].
    by apply processExecuteRequest_keyboard.
  - split; [done|]. split; [done|]. cbn.
    intros j gr Hj. apply list_lookup_insert_Some in Hj
      as [(<- & <- & _)|(Hne & Hj)]; [done | by eapply Hshape].
Qed.

(** ** The chats in a run *)

Lemma allowedChats_app g ls ls' :
  allowedChats g (ls ++ ls') = allowedChats g ls ++ allowedChats g ls'.
Proof.
  induction ls as [|[update|i e|i request|i] ls IH]; cbn; try done.
  destruct (allowedChat g update); cbn; by rewrite IH.
Qed.

Lemma everyCall_mono {R} (P Q : ∀ X : Type, call X -> Prop) (p : prog R) :
  (∀ X c, P X c -> Q X c) -> everyCall P p -> everyCall Q p.
Proof.
  intros HPQ. induction p as [r| |X c k IH]; cbn; [done | done |].
  intros (Hc & Hk). split; [by apply HPQ|]. intros x. apply IH, Hk.
Qed.

Lemma talksTo_mono {R} chats chats' (p : prog R) :
  chats ⊆ chats' -> talksTo chats p -> talksTo chats' p.
Proof.
  intros Hsub. apply everyCall_mono. intros X c Hc chat Hchat.
  by apply Hsub, Hc.
Qed.

Lemma chatOfEvent_call {X} (c : call X) (x : X) :
  chatOfEvent (event_of c x) = chatOfCall c.
Proof. by destruct c. Qed.

Ltac talks_to :=
  repeat first
    [ exact I
    | apply everyCall_deref
    | apply everyCall_trigger; cbn;
      first [ done | intros ? [= <-]; apply list_elem_of_singleton, eq_refl ]
    | apply everyCall_bind; [|intro]
    | match goal with
      | |- everyCall _ (match ?x with _ => _ end) => destruct x
      | |- everyCall _ (let _ := _ in _) => cbv zeta
      | |- everyCall _ (Vis _ _) =>
          split;
          [ cbn; first [ done
                       | intros ? [= <-]; apply list_elem_of_singleton, eq_refl ]
          | intro ]
      end ].

Lemma processUpdate_talksTo g update :
  talksTo (allowedChats g [LUpdate update]) (processUpdate g update).
Proof.
  unfold talksTo, processUpdate. cbn [allowedChats].
  unfold allowedChat, allowedSender.
  destruct (bot.UpdateMessage update) as [msg|]; cbn -[everyCall]; [|done].
  destruct (bot.From msg) as [sender|]; cbn -[everyCall]; [|done].
  destruct (bot.Username sender) as [userID|]; [|talks_to].
  destruct (isAvailableID g userID); cbn -[everyCall]; [|talks_to].
  unfold chooseMessage, readCode, replyOrEnqueue. talks_to.
Qed.

Lemma processExecuteRequest_talksTo D g request :
  talksTo [ChatID request] (processExecuteRequest D g request).
Proof.
  unfold talksTo, processExecuteRequest, executeAndRespond, sendMessageOrLog.
  apply everyCall_bind; [by apply everyCall_trigger|]. intros _.
  apply everyCall_defer; [by apply everyCall_trigger|]. talks_to.
Qed.

Lemma chatInvariant_start workers g : chatInvariant g [] (startWith workers g).
Proof.
  split; [done|]. split; [constructor|].
  by intros i gr [-> _]%lookup_replicate.
Qed.

Lemma chatOfCall_channel {X} (c : call X) σ (chats : list Z) :
  (∀ chat, chatOfCall c = Some chat -> chat ∈ chats) ->
  Forall (fun request => ChatID request ∈ chats) (executeChannel σ) ->
  Forall (fun request => ChatID request ∈ chats) (executeChannel (effect c σ)).
Proof.
  destruct c; try done. cbn. intros Hc Hq.
  apply Forall_app. split; [done|]. constructor; [by apply Hc | done].
Qed.

Lemma chatInvariant_step D g ls σ l σ' :
  chatInvariant g ls σ -> step D σ l σ' ->
  chatInvariant g (ls ++ [l]) σ'
  ∧ ∀ i e chat, l = LCall i e -> chatOfEvent e = Some chat ->
                chat ∈ allowedChats g ls.
Proof.
  intros (Hg & Hq & Hshape) Hstep. unfold chatInvariant.
  rewrite allowedChats_app.
  assert (Hsub : ∀ more, allowedChats g ls ⊆ allowedChats g ls ++ more)
    by (intros more chat Hin; apply elem_of_app; by left).
  assert (Hold : ∀ more i gr, goroutines σ !! i = Some gr ->
            match gr with
            | Handler p => talksTo (allowedChats g ls ++ more) p
            | Worker p => talksTo (allowedChats g ls ++ more) p
            | WorkerIdle => True
            end).
  { intros more i gr Hi. specialize (Hshape i gr Hi).
    destruct gr as [p| |p]; [|done|]; by apply (talksTo_mono _ _ _ (Hsub _)). }
  assert (Hqueue : ∀ more,
            Forall (fun request => ChatID request ∈ allowedChats g ls ++ more)
              (executeChannel σ)).
  { intros more. eapply Forall_impl; [exact Hq|]. intros r Hr. by apply Hsub. }
  destruct Hstep as [σ update Hmsg | σ i p e p' σ' Hi Hcall
                    | σ i p e p' σ' Hi Hcall | σ i request rest Hi Hch
                    | σ i r Hi].
  - split; [|done]. split; [done|]. split; [apply Hqueue|]. cbn [goroutines setGoroutines].
    intros i gr Hgr. apply lookup_app_Some in Hgr as [Hgr|[Hge Hgr]];
      [by eapply Hold|].
    apply list_lookup_singleton_Some in Hgr as [Hz <-].
    rewrite Hg. eapply talksTo_mono; [|apply processUpdate_talksTo].
    intros chat Hin. apply elem_of_app. by right.
  - destruct p as [r| |X c k]; [done | done |].
    destruct Hcall as (_ & x & -> & -> & ->).
    destruct (Hshape _ _ Hi) as (Hc & Hk).
    split.
    + split; [by rewrite <- Hg; cbn; rewrite effect_globals|].
      cbn [allowedChats]. rewrite app_nil_r. split.
      * by apply chatOfCall_channel.
      * cbn [goroutines setGoroutines]. rewrite effect_goroutines.
        intros j gr Hj. apply list_lookup_insert_Some in Hj
          as [(<- & <- & _)|(Hne & Hj)]; [apply Hk | by eapply Hshape].
    + intros j e chat [= <- <-]. rewrite chatOfEvent_call. apply Hc.
  - destruct p as [r| |X c k]; [done | done |].
    destruct Hcall as (_ & x & -> & -> & ->).
    destruct (Hshape _ _ Hi) as (Hc & Hk).
    split.
    + split; [by rewrite <- Hg; cbn; rewrite effect_globals|].
      cbn [allowedChats]. rewrite app_nil_r. split.
      * by apply chatOfCall_channel.
      * cbn [goroutines setGoroutines]. rewrite effect_goroutines.
        intros j gr Hj. apply list_lookup_insert_Some in Hj
          as [(<- & <- & _)|(Hne & Hj)]; [apply Hk | by eapply Hshape].
    + intros j e chat [= <- <-]. rewrite chatOfEvent_call. apply Hc.
  - split; [|done]. split; [done|].
    cbn [allowedChats]. rewrite app_nil_r.
    rewrite Hch in Hq. apply Forall_cons in Hq as (Hrequest & Hrest).
    split; [done|]. cbn [goroutines setGoroutines].
    intros j gr Hj. apply list_lookup_insert_Some in Hj
      as [(<- & <- & _)|(Hne & Hj)]; [|by eapply Hshape].
    eapply talksTo_mono; [|apply processExecuteRequest_talksTo].
    by intros chat ->%list_elem_of_singleton.
  - split; [|done]. split; [done|].
    cbn [allowedChats]. rewrite app_nil_r. split; [done|].
    cbn [goroutines setGoroutines].
    intros j gr Hj. apply list_lookup_insert_Some in Hj
      as [(<- & <- & _)|(Hne & Hj)]; [done | by eapply Hshape].
Qed.

Lemma chatInvariant_steps D workers g ls σ :
  steps D (startWith workers g) ls σ -> chatInvariant g ls σ.
Proof.
  induction 1 as [|ls σ l σ' _ IH Hstep].
  - apply chatInvariant_start.
  - by apply (chatInvariant_step D g ls σ l σ').
Qed.

Section MoreProcessTheorems.

Variable DetectContentType : list byte -> string.

(** X18.  In the process as main starts it, with its one worker goroutine,
    executeLock is never contended: whenever the worker is at
    executeLock.Lock the lock is free and the worker can take it. *)
Theorem execute_lock_uncontended (g : Globals) (ls : list label) (σ : State)
    (i : nat) (k : unit -> prog bool) :
  steps DetectContentType (start g) ls σ ->
  goroutines σ !! i = Some (Worker (Vis ExecuteLockLock k)) ->
  i = 0%nat
  ∧ executeLocked σ = false
  ∧ inFlight ls = []
  ∧ ∃ σ', step DetectContentType σ (LCall i EvExecuteLockLock) σ'.
Proof.
  intros Hsteps Hi.
  pose proof (oneWorker_steps _ _ _ _ Hsteps) as (_ & Hkind).
  pose proof (lockInvariant_steps _ _ _ _ _ Hsteps) as Hinv.
  assert (Hzero : i = 0%nat).
  { specialize (Hkind _ _ Hi). cbn in Hkind.
    symmetry in Hkind. apply negb_false_iff in Hkind.
    by apply Nat.eqb_eq in Hkind. }
  assert (Hnone : inFlight ls = []).
  { destruct (inFlight ls) as [|j rest] eqn:Hflight; [done|].
    assert (Hj : j ∈ inFlight ls) by (rewrite Hflight; by left).
    destruct (inFlight_worker _ _ _ Hinv Hj) as (p & Hp & Hholding).
    specialize (Hkind _ _ Hp). cbn in Hkind.
    symmetry in Hkind. apply negb_false_iff in Hkind.
    apply Nat.eqb_eq in Hkind. subst. rewrite Hi in Hp.
    injection Hp as <-. by destruct Hholding. }
  assert (Hfree : executeLocked σ = false).
  { destruct Hinv as (Hlock & _). destruct (executeLocked σ); [|done].
    destruct Hlock as [j Hj]. by rewrite Hnone in Hj. }
  repeat split; try done.
  eexists. eapply (step_worker _ σ i _ EvExecuteLockLock (k tt)); [exact Hi|].
  split; [cbn; by rewrite Hfree|]. by exists tt.
Qed.

(** X19.  In every run every message, photo and video that any goroutine
    sends is given options that hold the keyboard of the two commands as
    reply_markup, also where the map has been written to by an earlier send;
    every request that is pushed to the queue, waits in it or is received
    from it carries exactly the options literal of processUpdate. *)
Theorem keyboard_on_every_send (workers : nat) (g : Globals)
    (ls : list label) (σ : State) :
  steps DetectContentType (startWith workers g) ls σ ->
  Forall keyboardLabel ls
  ∧ Forall (fun request => MessageOptions request = replyOptions)
      (executeChannel σ).
Proof.
  intros Hsteps.
  enough (Forall keyboardLabel ls ∧ keyboardInvariant σ) as (? & ? & _)
    by done.
  induction Hsteps as [|ls σ l σ' _ (IHls & IHσ) Hstep].
  - split; [constructor | apply keyboardInvariant_start].
  - destruct (keyboardInvariant_step _ _ _ _ IHσ Hstep) as (Hl & Hσ').
    split; [|done]. apply Forall_app. split; [done | by constructor].
Qed.

(** X20.  The process talks to allowed senders only: in every run, every
    chat action, message, photo or video that a goroutine sends, and every
    request it pushes, is for the chat of an update that arrived before and
    whose sender isAvailableID accepts; the requests in the queue are for
    such chats too. *)
Theorem sends_to_allowed_chats (workers : nat) (g : Globals)
    (ls : list label) (σ : State) :
  steps DetectContentType (startWith workers g) ls σ ->
  (∀ i e σ' chat,
     step DetectContentType σ (LCall i e) σ' ->
     chatOfEvent e = Some chat ->
     chat ∈ allowedChats g ls)
  ∧ Forall (fun request => ChatID request ∈ allowedChats g ls)
      (executeChannel σ).
Proof.
  intros Hsteps.
  pose proof (chatInvariant_steps _ _ _ _ _ Hsteps) as Hinv.
  split; [|by destruct Hinv as (_ & ? & _)].
  intros i e σ' chat Hstep Hchat.
  destruct (chatInvariant_step _ _ _ _ _ _ Hinv Hstep) as (_ & Hsent).
  by apply (Hsent i e).
Qed.

End MoreProcessTheorems.


(** ** The replies and the script file *)

#[local] Arguments textOf : simpl never.

(** X21.  processUpdate never sends an empty text: the empty message is the
    signal to push a request instead. *)
Theorem processUpdate_reply_not_empty (g : Globals) (o : oracle)
    (update : bot.Update) :
  Forall (fun reply => reply.1.2 ≠ "")
    (sentMessages (trace o (processUpdate g update))).
Proof.
  run_update. all: repeat constructor.
  all: cbn; intros Hempty; try done.
  all: rewrite Hempty in *; done.
Qed.

(** X22.  processUpdate reads at most one file, the script of the
    configuration, and only for a text with the prefix "/showcode" from an
    allowed sender. *)
Theorem processUpdate_reads_script_only (g : Globals) (o : oracle)
    (msg : bot.Message) :
  let tr := trace o (processUpdate g {| bot.UpdateMessage := Some msg |}) in
  (length (fileReads tr) ≤ 1)%nat
  ∧ Forall (fun read => read.1 = scriptPath g) (fileReads tr)
  ∧ (fileReads tr ≠ [] ->
     HasPrefix (textOf msg) commandShowCode = true
     ∧ ∃ userID, bot.From msg ≫= bot.Username = Some userID
                 ∧ isAvailableID g userID = true).
Proof.
  run_update.
  all: split; [cbn; lia|]; split; [repeat constructor|].
  all: intros Hread'; try done.
  all: split; [done | by eexists].
Qed.

(** X23.  No text has two of the three commands as a prefix, so the order of
    the cases in the switch of processUpdate does not matter. *)
Theorem commands_exclude_each_other (txt : string) :
  ((if HasPrefix txt commandStart then 1 else 0)
   + (if HasPrefix txt commandExecute then 1 else 0)
   + (if HasPrefix txt commandShowCode then 1 else 0) ≤ 1)%nat.
Proof.
  destruct (HasPrefix txt commandShowCode) eqn:Hshow.
  - rewrite (showcode_not_start _ Hshow), (showcode_not_execute _ Hshow). done.
  - destruct (HasPrefix txt commandExecute) eqn:Hexec.
    + rewrite (execute_not_start _ Hexec). done.
    + destruct (HasPrefix txt commandStart); cbn; lia.
Qed.


(** ** The theorems at the sample data *)

Lemma processUpdate_drops_others_witness :
  let o := sampleOracle (inl []) ([], None) delivered in
  isAvailableID sampleGlobals "stranger" = false
  ∧ dispatch sampleGlobals o (sampleUpdate "stranger" 9 (Some "/execute"))
    = Drop.
Proof.
  intros o. split; [reflexivity|].
  destruct (processUpdate_drops_others sampleGlobals o
              (sampleMessage "stranger" 9 (Some "/execute"))
              {| bot.Username := Some "stranger"; bot.FirstName := "Pi" |})
    as (_ & H).
  - reflexivity.
  - intros userID [= <-]. reflexivity.
  - exact H.
Defined.

Lemma start_prompt_witness :
  let o := sampleOracle (inl []) ([], None) delivered in
  HasPrefix "/start now" commandStart = true
  ∧ dispatch sampleGlobals o
      (sampleUpdate "telegram_id_1" 7 (Some "/start now"))
    = ReplyWith "Input your command:".
Proof.
  intros o. split; [reflexivity|].
  destruct (start_prompt sampleConfig o
              (sampleMessage "telegram_id_1" 7 (Some "/start now"))
              "telegram_id_1") as (H & _);
    [reflexivity | reflexivity | reflexivity | exact H].
Defined.

Lemma execute_round_trip_witness :
  let o := sampleOracle (inl []) ([], None) delivered in
  let o' := sampleOracle (inl []) (jpegBytes, None) delivered in
  HasPrefix (sampleSniffer jpegBytes) "image" = true
  ∧ ∃ request,
      enqueued (trace o (processUpdate sampleGlobals
                           (sampleUpdate "telegram_id_1" 7 (Some "/execute"))))
      = [request]
      ∧ sentPhotos (trace o' (processExecuteRequest sampleSniffer
                                sampleGlobals request))
        = [(7, bot.InputFileFromBytes jpegBytes)].
Proof.
  intros o o'. split; [reflexivity|].
  destruct (execute_round_trip sampleSniffer sampleConfig o
              (sampleMessage "telegram_id_1" 7 (Some "/execute"))
              "telegram_id_1") as (request & Hq & Hphoto);
    [reflexivity | reflexivity | reflexivity |].
  exists request. split; [exact Hq|].
  destruct (Hphoto o' jpegBytes) as (H & _);
    [reflexivity | reflexivity | exact H].
Defined.

Lemma sampleBurstRun_pool :
  poolFlight sampleBurstRun.1 = [5%nat]
  ∧ allowedChats sampleGlobals sampleBurstRun.1 = [1; 2; 3; 4; 5].
Proof. vm_compute. by split. Qed.

Lemma sampleRun_pool : poolFlight sampleRun.1 = [1%nat].
Proof. vm_compute. reflexivity. Qed.

Lemma sampleReceived_atLock : atLock sampleReceived.2 0 = true.
Proof. vm_compute. reflexivity. Qed.

Lemma sampleDay_length : length sampleDay.1 = 19%nat.
Proof. vm_compute. reflexivity. Qed.

Lemma atLock_true σ i :
  atLock σ i = true ->
  ∃ k, goroutines σ !! i = Some (Worker (Vis ExecuteLockLock k)).
Proof.
  unfold atLock.
  destruct (goroutines σ !! i) as [[p| |[r| |X c k]]|]; try done.
  destruct c; try done. intros _. by exists k.
Qed.

Lemma pool_lock_exclusion_witness :
  steps sampleSniffer (start sampleGlobals) sampleBurstRun.1 sampleBurstRun.2
  ∧ poolFlight sampleBurstRun.1 = [5%nat]
  ∧ poolLocked sampleBurstRun.2 = true.
Proof.
  assert (Hsteps : steps sampleSniffer (start sampleGlobals)
                     sampleBurstRun.1 sampleBurstRun.2)
    by apply fireAll_sound.
  destruct sampleBurstRun_pool as (Hpool & _).
  split; [exact Hsteps|]. split; [exact Hpool|].
  destruct (pool_lock_exclusion sampleSniffer 1%nat sampleGlobals
              sampleBurstRun.1 sampleBurstRun.2 Hsteps) as (_ & Hlocked & _).
  apply Hlocked. rewrite Hpool. discriminate.
Defined.

Lemma push_holds_pool_lock_witness :
  steps sampleSniffer (start sampleGlobals) sampleBurstRun.1 sampleBurstRun.2
  ∧ atSend sampleBurstRun.2 5 = Some (sampleRequest 5)
  ∧ poolFlight sampleBurstRun.1 = [5%nat]
  ∧ poolLocked sampleBurstRun.2 = true.
Proof.
  assert (Hsteps : steps sampleSniffer (start sampleGlobals)
                     sampleBurstRun.1 sampleBurstRun.2)
    by apply fireAll_sound.
  destruct sampleBurstRun_full as (Hsend & _).
  destruct (atSend_Some _ _ _ Hsend) as [k Hk].
  destruct (push_holds_pool_lock sampleSniffer 1%nat sampleGlobals
              sampleBurstRun.1 sampleBurstRun.2 5%nat (sampleRequest 5) k
              Hsteps Hk) as (Hflight & Hlocked & _).
  split; [exact Hsteps|]. split; [exact Hsend|].
  split; [exact Hflight | exact Hlocked].
Defined.

Lemma locks_never_nested_witness :
  steps sampleSniffer (start sampleGlobals) sampleRun.1 sampleRun.2
  ∧ poolFlight sampleRun.1 = [1%nat]
  ∧ inFlight sampleRun.1 = [0%nat]
  ∧ 1%nat ∉ inFlight sampleRun.1.
Proof.
  assert (Hsteps : steps sampleSniffer (start sampleGlobals)
                     sampleRun.1 sampleRun.2)
    by apply fireAll_sound.
  split; [exact Hsteps|]. split; [exact sampleRun_pool|].
  split; [exact sampleRun_inFlight|].
  destruct (locks_never_nested sampleSniffer 1%nat sampleGlobals
              sampleRun.1 sampleRun.2 Hsteps) as (_ & _ & Hnot & _).
  apply Hnot. rewrite sampleRun_pool. apply list_elem_of_singleton, eq_refl.
Defined.

Lemma execute_lock_uncontended_witness :
  steps sampleSniffer (start sampleGlobals) sampleReceived.1 sampleReceived.2
  ∧ atLock sampleReceived.2 0 = true
  ∧ executeLocked sampleReceived.2 = false.
Proof.
  assert (Hsteps : steps sampleSniffer (start sampleGlobals)
                     sampleReceived.1 sampleReceived.2)
    by apply fireAll_sound.
  destruct (atLock_true _ _ sampleReceived_atLock) as [k Hk].
  destruct (execute_lock_uncontended sampleSniffer sampleGlobals
              sampleReceived.1 sampleReceived.2 0%nat k Hsteps Hk)
    as (_ & Hfree & _).
  split; [exact Hsteps|]. split; [exact sampleReceived_atLock | exact Hfree].
Defined.

Lemma keyboard_on_every_send_witness :
  steps sampleSniffer (start sampleGlobals) sampleDay.1 sampleDay.2
  ∧ length sampleDay.1 = 19%nat
  ∧ Forall keyboardLabel sampleDay.1.
Proof.
  assert (Hsteps : steps sampleSniffer (start sampleGlobals)
                     sampleDay.1 sampleDay.2)
    by apply fireAll_sound.
  split; [exact Hsteps|]. split; [exact sampleDay_length|].
  destruct (keyboard_on_every_send sampleSniffer 1%nat sampleGlobals
              sampleDay.1 sampleDay.2 Hsteps) as (Hall & _).
  exact Hall.
Defined.

Lemma sends_to_allowed_chats_witness :
  steps sampleSniffer (start sampleGlobals) sampleBurstRun.1 sampleBurstRun.2
  ∧ allowedChats sampleGlobals sampleBurstRun.1 = [1; 2; 3; 4; 5]
  ∧ Forall (fun request =>
              ChatID request ∈ allowedChats sampleGlobals sampleBurstRun.1)
      (executeChannel sampleBurstRun.2).
Proof.
  assert (Hsteps : steps sampleSniffer (start sampleGlobals)
                     sampleBurstRun.1 sampleBurstRun.2)
    by apply fireAll_sound.
  destruct sampleBurstRun_pool as (_ & Hchats).
  split; [exact Hsteps|]. split; [exact Hchats|].
  destruct (sends_to_allowed_chats sampleSniffer 1%nat sampleGlobals
              sampleBurstRun.1 sampleBurstRun.2 Hsteps) as (_ & Hqueue).
  exact Hqueue.
Defined.
